(** * xiaozhi-go: the session orchestrator, its audio-stream controller and
    the reconnection policy

  A shallow embedding of [audio/controller.go], [utils/reconnect.go] and the
  [core] client (state machine and protocol dispatcher), with the properties
  the specification states about them; then of the recorder, the player's
  callback, the logger and the websocket transport, with properties read off
  their code.

  Conventions.  Every method of the Go sources that mutates its receiver is
  a function from the receiver's state to the new state (paired with the
  returned value when it has one).  Each method of the controller takes the
  controller's mutex for its whole body, so a concurrent interleaving of
  calls is a sequence of calls. *)

From Stdlib Require Import ZArith QArith Bool List Sorted Lia Ascii String.
From Stdlib.Strings Require Import Byte.
From stdpp Require Import base decidable option list strings pretty gmap.

Local Open Scope Z_scope.

(* ===================================================================== *)
(** * audio/controller.go *)
(* ===================================================================== *)

Module Audio.

(** [type controller struct { mu; isSending; isReceiving bool }] *)
Record controller : Type := mkController {
  isSending : bool;
  isReceiving : bool
}.

#[global] Instance controller_eq_dec : EqDecision controller.
Proof. solve_decision. Defined.

(** [NewController]: the zero value of the struct. *)
Definition NewController : controller :=
  {| isSending := false; isReceiving := false |}.

Definition StartSending (c : controller) : bool * controller :=
  if isReceiving c then (false, c)
  else (true, {| isSending := true; isReceiving := isReceiving c |}).

Definition StopSending (c : controller) : controller :=
  {| isSending := false; isReceiving := isReceiving c |}.

Definition StartReceiving (c : controller) : bool * controller :=
  if isSending c then (false, c)
  else (true, {| isSending := isSending c; isReceiving := true |}).

Definition StopReceiving (c : controller) : controller :=
  {| isSending := isSending c; isReceiving := false |}.

Definition IsSending (c : controller) : bool := isSending c.
Definition IsReceiving (c : controller) : bool := isReceiving c.

(** The six methods of the [Controller] interface, as requests. *)
Inductive call : Type :=
| CallStartSending
| CallStopSending
| CallStartReceiving
| CallStopReceiving
| CallIsSending
| CallIsReceiving.

(** What a call hands back: nothing for the two stops, a boolean otherwise. *)
Inductive reply : Type :=
| Done
| Answer (b : bool).

Definition perform (k : call) (c : controller) : reply * controller :=
  match k with
  | CallStartSending => let (b, c') := StartSending c in (Answer b, c')
  | CallStopSending => (Done, StopSending c)
  | CallStartReceiving => let (b, c') := StartReceiving c in (Answer b, c')
  | CallStopReceiving => (Done, StopReceiving c)
  | CallIsSending => (Answer (IsSending c), c)
  | CallIsReceiving => (Answer (IsReceiving c), c)
  end.

(** The states the controller goes through while serving [ks], the state
    it starts in first.  These are all the states an observer can see:
    a method body runs under the mutex. *)
Fixpoint history (ks : list call) (c : controller) : list controller :=
  match ks with
  | [] => [c]
  | k :: ks' => c :: history ks' (snd (perform k c))
  end.

(** not (sending and receiving) *)
Definition half_duplex (c : controller) : Prop :=
  isSending c && isReceiving c = false.

End Audio.

(* ===================================================================== *)
(** * utils/reconnect.go *)
(* ===================================================================== *)

Module Utils.

(** [time.Duration] is an [int64] count of nanoseconds. *)
Definition Duration : Type := Z.

Definition Second : Duration := 1000000000.

(** Two's-complement wrap-around of [int64] arithmetic. *)
Definition wrap64 (z : Z) : Z := (z + 2 ^ 63) mod 2 ^ 64 - 2 ^ 63.

Record ExponentialBackoff : Type := mkBackoff {
  currentDelay : Duration;
  maxDelay : Duration
}.

Definition NewExponentialBackoff : ExponentialBackoff :=
  {| currentDelay := wrap64 (1 * Second); maxDelay := wrap64 (30 * Second) |}.

(** [delay := e.currentDelay; e.currentDelay *= 2; if e.currentDelay >
    e.maxDelay { e.currentDelay = e.maxDelay }; return delay] *)
Definition NextDelay (e : ExponentialBackoff) : Duration * ExponentialBackoff :=
  let delay := currentDelay e in
  let doubled := wrap64 (currentDelay e * 2) in
  let capped := if doubled >? maxDelay e then maxDelay e else doubled in
  (delay, {| currentDelay := capped; maxDelay := maxDelay e |}).

(** The values returned by [n] successive calls of [NextDelay]. *)
Fixpoint delays (n : nat) (e : ExponentialBackoff) : list Duration :=
  match n with
  | O => []
  | S n' => let (d, e') := NextDelay e in d :: delays n' e'
  end.

(** The policy after [n] successive calls of [NextDelay].  [NextDelay] is
    the only method [ExponentialBackoff] has: the [ReconnectStrategy]
    interface of the same file also lists [Reset()], and no type of the
    repository defines it. *)
Fixpoint after_calls (n : nat) (e : ExponentialBackoff) : ExponentialBackoff :=
  match n with
  | O => e
  | S n' => after_calls n' (snd (NextDelay e))
  end.

(** What every policy reachable from a fresh one satisfies. *)
Definition in_range (e : ExponentialBackoff) : Prop :=
  Second <= currentDelay e <= maxDelay e /\ maxDelay e = 30 * Second.

End Utils.

(* ===================================================================== *)
(** * core: the client (session orchestrator and protocol dispatcher) *)
(* ===================================================================== *)

Module Core.
Import Audio.

Local Open Scope string_scope.

(** ** JSON as [encoding/json] decodes it into [interface{}] *)

(** A number is kept as its literal: no handler looks inside one. *)
#[warnings="-register-all"]
Inductive json : Type :=
| JNull
| JBool (b : bool)
| JNumber (literal : string)
| JString (s : string)
| JArray (items : list json)
| JObject (fields : gmap string json).

(** [map[string]interface{}] *)
Abbreviation object := (gmap string json).

(** [v, ok := m[k].(string)]: [None] when the key is absent or holds
    anything but a string. *)
Definition field_string (m : object) (k : string) : option string :=
  match m !! k with
  | Some (JString s) => Some s
  | _ => None
  end.

(** What [json.Unmarshal(data, &message)] made of a payload.  The decoder
    is library code: the dispatcher is embedded from its result on.  JSON
    [null] decodes to the nil map, which reads like the empty one. *)
Inductive unmarshal : Type :=
| Malformed (err : string)
| Decoded (message : object).

(** ** Device states and listen modes *)

(** [type DeviceState string] *)
Definition DeviceState : Type := string.

Definition DeviceStateUnknown : DeviceState := "unknown".
Definition DeviceStateConnecting : DeviceState := "connecting".
Definition DeviceStateIdle : DeviceState := "idle".
Definition DeviceStateListening : DeviceState := "listening".
Definition DeviceStateSpeaking : DeviceState := "speaking".
Definition DeviceStateDisconnected : DeviceState := "disconnected".

(** [type ListenMode string] *)
Definition ListenMode : Type := string.

Definition ListenModeAuto : ListenMode := "auto".
Definition ListenModeManual : ListenMode := "manual".
Definition ListenModeRealtime : ListenMode := "realtime".

(** ** The client and the effects of its methods *)

Inductive level : Type := LevelDebug | LevelInfo | LevelWarn | LevelError.

(** What a method does to the world outside the client's own fields, in
    the order it does it: a record written to the logger (its message; the
    attributes are left out), a call of a method of the audio controller, a
    write to [c.state], a JSON text handed to [transport.Send], a [go]
    statement. *)
Inductive event : Type :=
| Logged (lv : level) (msg : string)
| Controller (k : call)
| StateChanged (old new : DeviceState)
| SentJSON (data : object)
| Go (task : string).

(** The part of [Config] that [Connect] reads.  [Websocket] tells whether
    the pointer [System.Network.Websocket] is non-nil; the three audio
    parameters are Go [int]s. *)
Record Config : Type := mkConfig {
  Transport : string;
  Websocket : bool;
  SampleRate : Z;
  Channels : Z;
  FrameDuration : Z
}.

(** The fields of [Client] the state machine and the dispatcher read or
    write.  [transport] tells whether [c.transport] is non-nil,
    [closeChan] whether the channel has been closed; [trace] collects the
    effects so far, oldest first. *)
Record Client : Type := mkClient {
  config : Config;
  state : DeviceState;
  sessionID : string;
  transport : bool;
  closeChan : bool;
  audioCtrl : controller;
  trace : list event
}.

(** [NewClient], when the recorder, the decoder and the player could be
    created. *)
Definition NewClient (cfg : Config) : Client :=
  {| config := cfg; state := DeviceStateUnknown; sessionID := ""; transport := false;
     closeChan := false; audioCtrl := NewController; trace := [] |}.

(** A Go [error] value: [None] is [nil], [Some msg] an error with that
    text. *)
Definition error : Type := option string.

(** A method either returns or panics. *)
Inductive result (A : Type) : Type :=
| Return (a : A)
| Panic (msg : string).
Arguments Return {A} a.
Arguments Panic {A} msg.

(** Methods of [*Client]: the receiver's state is threaded, a panic stops
    the method and everything that called it. *)
Definition method (A : Type) : Type := Client -> result A * Client.

Definition ret {A} (a : A) : method A := fun c => (Return a, c).

Definition bind {A B} (m : method A) (k : A -> method B) : method B :=
  fun c =>
    match m c with
    | (Return a, c') => k a c'
    | (Panic msg, c') => (Panic msg, c')
    end.

Definition panic {A} (msg : string) : method A := fun c => (Panic msg, c).

Notation "x <- m ;; k" := (bind m (fun x => k))
  (at level 100, m at next level, right associativity).
Notation "m ;; k" := (bind m (fun _ => k))
  (at level 100, right associativity).

Definition emit (e : event) : method unit := fun c =>
  (Return tt,
   {| config := config c; state := state c; sessionID := sessionID c; transport := transport c;
      closeChan := closeChan c; audioCtrl := audioCtrl c;
      trace := trace c ++ [e] |}).

Definition logf (lv : level) (msg : string) : method unit :=
  emit (Logged lv msg).

Definition set_state (s : DeviceState) : method unit := fun c =>
  (Return tt,
   {| config := config c; state := s; sessionID := sessionID c; transport := transport c;
      closeChan := closeChan c; audioCtrl := audioCtrl c;
      trace := trace c |}).

Definition set_sessionID (sid : string) : method unit := fun c =>
  (Return tt,
   {| config := config c; state := state c; sessionID := sid; transport := transport c;
      closeChan := closeChan c; audioCtrl := audioCtrl c;
      trace := trace c |}).

Definition set_transport (t : bool) : method unit := fun c =>
  (Return tt,
   {| config := config c; state := state c; sessionID := sessionID c; transport := t;
      closeChan := closeChan c; audioCtrl := audioCtrl c;
      trace := trace c |}).

Definition set_closeChan (b : bool) : method unit := fun c =>
  (Return tt,
   {| config := config c; state := state c; sessionID := sessionID c; transport := transport c;
      closeChan := b; audioCtrl := audioCtrl c;
      trace := trace c |}).

(** [c.audioCtrl.<k>()] *)
Definition audioCtrl_call (k : call) : method reply := fun c =>
  let (r, a) := perform k (audioCtrl c) in
  (Return r,
   {| config := config c; state := state c; sessionID := sessionID c; transport := transport c;
      closeChan := closeChan c; audioCtrl := a;
      trace := trace c ++ [Controller k] |}).

Definition answer (r : reply) : bool :=
  match r with
  | Answer b => b
  | Done => false
  end.

Definition audioCtrl_StartSending : method bool :=
  r <- audioCtrl_call CallStartSending ;; ret (answer r).
Definition audioCtrl_StopSending : method unit :=
  audioCtrl_call CallStopSending ;; ret tt.
Definition audioCtrl_StartReceiving : method bool :=
  r <- audioCtrl_call CallStartReceiving ;; ret (answer r).
Definition audioCtrl_StopReceiving : method unit :=
  audioCtrl_call CallStopReceiving ;; ret tt.
Definition audioCtrl_IsSending : method bool :=
  r <- audioCtrl_call CallIsSending ;; ret (answer r).
Definition audioCtrl_IsReceiving : method bool :=
  r <- audioCtrl_call CallIsReceiving ;; ret (answer r).

(** Reading a field of the receiver. *)
Definition get {A} (f : Client -> A) : method A := fun c => (Return (f c), c).

Definition GetState : method DeviceState := get state.

(** [setState]: the side effects of entering a state, the write and the
    log record happen only when the new state differs from the old one. *)
Definition setState (newState : DeviceState) : method unit :=
  oldState <- GetState ;;
  if decide (oldState = newState) then ret tt
  else
    (if decide (newState = DeviceStateSpeaking) then
       audioCtrl_StopSending ;;
       logf LevelDebug "Auto-stopped audio sending for speaking state"
     else if decide (newState = DeviceStateListening) then
       ok <- audioCtrl_StartSending ;;
       if ok then ret tt
       else logf LevelWarn
              "Failed to start audio sending when entering listening state"
     else ret tt) ;;
    set_state newState ;;
    emit (StateChanged oldState newState) ;;
    logf LevelInfo "State changed".


(** ** Outbound messages *)

(** [sendJSON]: [json.Marshal] cannot fail on the maps the client builds;
    [send] is what [transport.Send] returns if it is reached. *)
Definition sendJSON (data : object) (send : error) : method error :=
  connected <- get transport ;;
  if connected then
    logf LevelInfo "Sending JSON message" ;;
    emit (SentJSON data) ;;
    ret send
  else
    logf LevelError "Cannot send message, not connected to server" ;;
    ret (Some "not connected to server").

Definition listenStart (sid : string) (mode : ListenMode) : object :=
  <["session_id" := JString sid]>
    (<["type" := JString "listen"]>
       (<["state" := JString "start"]>
          (<["mode" := JString mode]> ∅))).

Definition SendStartListening (mode : ListenMode) (send : error)
  : method error :=
  s <- GetState ;;
  if decide (s ≠ DeviceStateIdle ∧ s ≠ DeviceStateConnecting) then
    ret (Some ("cannot start listening from state: " ++ s))
  else
    sid <- get sessionID ;;
    err <- sendJSON (listenStart sid mode) send ;;
    match err with
    | Some e => ret (Some ("failed to send listen command: " ++ e))
    | None =>
        setState DeviceStateListening ;;
        logf LevelInfo "Listening started" ;;
        ret None
    end.

Definition BeginAudioStream : method error :=
  ok <- audioCtrl_StartSending ;;
  if ok then ret None
  else ret (Some "cannot begin stream: currently receiving").

Definition EndAudioStream : method unit := audioCtrl_StopSending.

(** ** The handlers of the dispatcher *)

(** The dynamic type [encoding/json] gives a decoded value, as the
    runtime prints it when a type assertion fails. *)
Definition dynamic_type (v : option json) : string :=
  match v with
  | None | Some JNull => "nil"
  | Some (JBool _) => "bool"
  | Some (JNumber _) => "float64"
  | Some (JString _) => "string"
  | Some (JArray _) => "[]interface {}"
  | Some (JObject _) => "map[string]interface {}"
  end.

(** [handleHelloResponse].  [json.Marshal(msg)] cannot fail on a decoded
    map.  [c.sessionID = msg["session_id"].(string)] is the one-result
    form of the type assertion: it panics unless the field holds a
    string. *)
Definition handleHelloResponse (msg : object) (send : error) : method error :=
  logf LevelInfo "Received hello response from server" ;;
  match msg !! "session_id" with
  | Some (JString sid) =>
      set_sessionID sid ;;
      err <- SendStartListening ListenModeAuto send ;;
      (if err is Some _
       then logf LevelError "Failed to start auto listening"
       else ret tt) ;;
      err <- BeginAudioStream ;;
      match err with
      | Some e =>
          logf LevelError "Failed to start audio stream" ;;
          ret (Some e)
      | None =>
          emit (Go "startAudioCapture") ;;
          ret None
      end
  | v =>
      panic ("interface conversion: interface {} is " ++ dynamic_type v
             ++ ", not string")
  end.

Definition handleListenMessage (msg : object) : method error :=
  match field_string msg "state" with
  | None =>
      logf LevelError "Listen message missing state field" ;;
      ret (Some "listen state is missing")
  | Some st =>
      (if decide (st = "detect") then
         if field_string msg "text" is Some _
         then logf LevelInfo "Wake word detected"
         else ret tt
       else logf LevelDebug "Received listen message") ;;
      ret None
  end.

Definition handleTTSMessage (msg : object) (send : error) : method error :=
  match field_string msg "state" with
  | None => ret (Some "missing state field")
  | Some st =>
      if decide (st = "start") then
        EndAudioStream ;;
        s <- GetState ;;
        (if decide (s = DeviceStateListening) then
           logf LevelDebug "Forcing stop listening due to TTS start" ;;
           setState DeviceStateSpeaking
         else ret tt) ;;
        ok <- audioCtrl_StartReceiving ;;
        if ok then setState DeviceStateSpeaking ;; ret None
        else ret (Some "cannot receive while sending")
      else if decide (st = "stop") then
        audioCtrl_StopReceiving ;;
        logf LevelInfo "Stopped audio receiving" ;;
        setState DeviceStateIdle ;;
        err <- SendStartListening ListenModeAuto send ;;
        (if err is Some _
         then logf LevelError "Failed to start auto listening"
         else ret tt) ;;
        err <- BeginAudioStream ;;
        match err with
        | Some e =>
            logf LevelError "Failed to start audio stream" ;;
            ret (Some e)
        | None => ret None
        end
      else if decide (st = "sentence_start") then
        (if field_string msg "text" is Some _
         then logf LevelInfo "TTS sentence started"
         else logf LevelWarn "TTS sentence_start missing text") ;;
        ret None
      else if decide (st = "sentence_end") then
        (if field_string msg "text" is Some _
         then logf LevelInfo "TTS sentence ended"
         else logf LevelWarn "TTS sentence_end missing text") ;;
        ret None
      else ret None
  end.

Definition handleSTTMessage (msg : object) : method error :=
  match field_string msg "session_id" with
  | None => ret (Some "STT message missing session_id")
  | Some _ =>
      match field_string msg "text" with
      | None => ret (Some "STT message missing text")
      | Some _ => logf LevelInfo "STT result received" ;; ret None
      end
  end.

Definition handleLLMMessage (msg : object) : method error :=
  match field_string msg "session_id" with
  | None => ret (Some "LLM message missing session_id")
  | Some _ =>
      match field_string msg "text" with
      | None => ret (Some "LLM message missing text")
      | Some text =>
          logf LevelInfo "LLM response received" ;;
          (if decide (text = "😎")
           then logf LevelDebug "Received cool emoji response"
           else ret tt) ;;
          ret None
      end
  end.

Definition handleAbortMessage (msg : object) : method error :=
  logf LevelInfo "Session aborted" ;;
  setState DeviceStateIdle ;;
  ret None.

Definition handleErrorMessage (message : object) : method error :=
  match field_string message "message" with
  | None =>
      logf LevelError "Received error message without 'message' field" ;;
      ret (Some "error message is missing 'message' field")
  | Some errorMsg =>
      match field_string message "session_id" with
      | None =>
          logf LevelError "Received error message without 'session_id' field" ;;
          ret (Some "error message is missing 'session_id' field")
      | Some sid =>
          logf LevelError "Received error message" ;;
          ret (Some ("session " ++ sid ++ " error: " ++ errorMsg))
      end
  end.

(** [handleMessage], from the result of its [json.Unmarshal] on. *)
Definition handleMessage (msg : unmarshal) (send : error) : method error :=
  match msg with
  | Malformed e =>
      logf LevelError "Failed to unmarshal message" ;;
      ret (Some ("failed to unmarshal message: " ++ e))
  | Decoded message =>
      match field_string message "type" with
      | None =>
          logf LevelError "Received message without type field" ;;
          ret (Some "message type is missing")
      | Some msgType =>
          logf LevelInfo "Handling message" ;;
          if decide (msgType = "hello") then handleHelloResponse message send
          else if decide (msgType = "listen") then handleListenMessage message
          else if decide (msgType = "tts") then handleTTSMessage message send
          else if decide (msgType = "stt") then handleSTTMessage message
          else if decide (msgType = "llm") then handleLLMMessage message
          else if decide (msgType = "abort") then handleAbortMessage message
          else if decide (msgType = "error") then handleErrorMessage message
          else
            logf LevelWarn "Unknown message type received" ;;
            ret None
      end
  end.

(** ** The inbound pump *)

(** [interfaces.MessageType] *)
Inductive MessageType : Type := MsgText | MsgBinary | MsgControl.

(** [interfaces.Message]; the field [Type] is [MsgType] here. *)
Record Message : Type := mkMessage {
  Payload : string;
  MsgType : MessageType
}.

(** What the collaborators answer while one inbound message is handled:
    the JSON decoder on the payload, the transport on a send, the Opus
    decoder and the player on a frame. *)
Record replies : Type := mkReplies {
  Unmarshal : unmarshal;
  Send : error;
  Decode : error;
  Play : error
}.

Definition handleTextMessage (data : string) (w : replies) : method error :=
  if decide (String.length data = 0%nat) then
    logf LevelDebug "Empty message received" ;;
    ret None
  else
    match Unmarshal w with
    | Malformed e =>
        logf LevelError "JSON unmarshal failed" ;;
        ret (Some ("failed to unmarshal message: " ++ e))
    | Decoded _ => handleMessage (Unmarshal w) (Send w)
    end.

Definition handleReceivedAudio (w : replies) : method error :=
  receiving <- audioCtrl_IsReceiving ;;
  if receiving then
    match Decode w with
    | Some e => ret (Some ("audio decode failed: " ++ e))
    | None =>
        match Play w with
        | Some e => ret (Some ("audio play failed: " ++ e))
        | None => logf LevelDebug "Played audio frame" ;; ret None
        end
    end
  else ret (Some "not in audio receiving state").

Definition handleBinaryMessage (w : replies) : method error :=
  receiving <- audioCtrl_IsReceiving ;;
  if receiving then handleReceivedAudio w
  else logf LevelDebug "Received unexpected binary message" ;; ret None.

(** One turn of the loop of [messageHandler] on a received message. *)
Definition messageHandler_turn (msg : Message) (w : replies) : method unit :=
  match MsgType msg with
  | MsgText =>
      err <- handleTextMessage (Payload msg) w ;;
      if err is Some _
      then logf LevelError "Failed to handle text message"
      else ret tt
  | MsgBinary =>
      err <- handleBinaryMessage w ;;
      if err is Some _
      then logf LevelError "Failed to handle binary message"
      else ret tt
  | MsgControl => ret tt
  end.

(** [messageHandler] on the messages it receives before the close signal,
    each with the collaborators' answers during its turn.  A panic in a
    turn ends the loop (and, in Go, the process). *)
Fixpoint messageHandler (inbox : list (Message * replies)) : method unit :=
  match inbox with
  | [] => ret tt
  | (msg, w) :: rest => messageHandler_turn msg w ;; messageHandler rest
  end.

(** ** Connecting and closing *)

(** What the collaborators answer during [Connect]: the constructor of the
    WebSocket transport, [transport.Connect], and the send of the hello. *)
Record dialing : Type := mkDialing {
  NewWebSocketProtocol : error;
  Dial : error;
  Hello : error
}.

Definition NewProtocol (cfg : Config) (d : dialing) : error :=
  if decide (Transport cfg = "websocket") then
    if Websocket cfg then NewWebSocketProtocol d
    else Some "websocket config missing"
  else Some ("unsupported protocol: " ++ Transport cfg).

Definition helloMsg (cfg : Config) : object :=
  <["type" := JString "hello"]>
    (<["version" := JNumber "1"]>
       (<["transport" := JString (Transport cfg)]>
          (<["audio_params" :=
               JObject
                 (<["format" := JString "opus"]>
                    (<["sample_rate" := JNumber (pretty (SampleRate cfg))]>
                       (<["channels" := JNumber (pretty (Channels cfg))]>
                          (<["frame_duration" :=
                               JNumber (pretty (FrameDuration cfg))]> ∅))))]>
             ∅))).

(** [Connect].  The first log record reads
    [c.config.System.Network.Websocket.URL] through the pointer, which
    panics when the pointer is nil.  Closing the transport after a failed
    hello leaves [c.transport] set. *)
Definition Connect (d : dialing) : method error :=
  setState DeviceStateConnecting ;;
  cfg <- get config ;;
  (if Websocket cfg then logf LevelInfo "Connecting to server"
   else panic "runtime error: invalid memory address or nil pointer dereference") ;;
  match NewProtocol cfg d with
  | Some e =>
      setState DeviceStateUnknown ;;
      logf LevelError "Failed to create transport" ;;
      ret (Some e)
  | None =>
      match Dial d with
      | Some e =>
          setState DeviceStateUnknown ;;
          logf LevelError "Failed to connect to server" ;;
          ret (Some ("failed to connect to server: " ++ e))
      | None =>
          set_transport true ;;
          err <- sendJSON (helloMsg cfg) (Hello d) ;;
          match err with
          | Some e =>
              setState DeviceStateUnknown ;;
              logf LevelError "Failed to send hello message" ;;
              ret (Some ("failed to send hello message: " ++ e))
          | None =>
              emit (Go "messageHandler") ;;
              emit (Go "audioSender") ;;
              logf LevelInfo "Connected to server successfully" ;;
              setState DeviceStateIdle ;;
              ret None
          end
      end
  end.

(** What happens outside during [Close]: whether the capture task takes
    the stop signal from the unbuffered [audioStopChan], and what
    [transport.Close] returns. *)
Record closing : Type := mkClosing {
  StopTaken : bool;
  TransportClose : error
}.

Definition StopAudioCapture (q : closing) : method unit :=
  if StopTaken q then logf LevelInfo "Sent stop signal to audio capture"
  else logf LevelWarn "Audio stop channel is full".

(** [Close].  [close(c.closeChan)] panics on a channel that is already
    closed; [c.wg.Wait()] changes no field. *)
Definition Close (q : closing) : method error :=
  logf LevelInfo "Closing client connection" ;;
  closed <- get closeChan ;;
  (if closed then panic "close of closed channel"
   else set_closeChan true) ;;
  StopAudioCapture q ;;
  connected <- get transport ;;
  match (if connected then TransportClose q else None) with
  | Some e =>
      logf LevelError "Failed to close WebSocket connection" ;;
      ret (Some e)
  | None =>
      setState DeviceStateDisconnected ;;
      logf LevelInfo "Client closed successfully" ;;
      ret None
  end.

(** A message of a type the dispatcher knows, other than [hello], without
    a field its handler requires. *)
Definition lacks_required_field (m : object) : Prop :=
  (field_string m "type" = Some "tts" /\ field_string m "state" = None) \/
  (field_string m "type" = Some "listen" /\ field_string m "state" = None) \/
  (field_string m "type" = Some "stt" /\ field_string m "text" = None) \/
  (field_string m "type" = Some "llm" /\ field_string m "text" = None) \/
  (field_string m "type" = Some "error" /\ field_string m "message" = None).

(** A method that leaves the observation [f] of the client as it was. *)
Definition preserves {A B} (f : Client -> B) (m : method A) : Prop :=
  forall c : Client, f (snd (m c)) = f c.

Definition is_state_change (e : event) : bool :=
  match e with
  | StateChanged _ _ => true
  | _ => false
  end.

(** ** Listening on request, the status and the audio pumps *)

(** {"session_id": sid, "type": "listen", "state": "stop"} *)
Definition listenStop (sid : string) : object :=
  <["session_id" := JString sid]>
    (<["type" := JString "listen"]>
       (<["state" := JString "stop"]> ∅)).

Definition StartListening (mode : ListenMode) (send : error)
  : method error :=
  currentState <- GetState ;;
  if decide (currentState = DeviceStateIdle) then
    sid <- get sessionID ;;
    logf LevelInfo "Starting listening" ;;
    err <- sendJSON (listenStart sid mode) send ;;
    match err with
    | Some e =>
        logf LevelError "Failed to send start listening command" ;;
        ret (Some e)
    | None =>
        setState DeviceStateListening ;;
        ret None
    end
  else
    logf LevelWarn "Cannot start listening from current state" ;;
    ret (Some ("device is not in idle state (current: " ++ currentState
               ++ ")")).

Definition StopListening (send : error) : method error :=
  currentState <- GetState ;;
  if decide (currentState = DeviceStateListening) then
    sid <- get sessionID ;;
    logf LevelInfo "Stopping listening" ;;
    err <- sendJSON (listenStop sid) send ;;
    match err with
    | Some e =>
        logf LevelError "Failed to send stop listening command" ;;
        ret (Some e)
    | None =>
        setState DeviceStateIdle ;;
        ret None
    end
  else
    logf LevelWarn "Cannot stop listening from current state" ;;
    ret (Some ("device is not in listening state (current: " ++ currentState
               ++ ")")).

(** [type Status struct] *)
Record Status : Type := mkStatus {
  State : DeviceState;
  SessionID : string;
  ConnectionStatus : string
}.

Definition GetStatus : method Status :=
  get (fun c =>
         {| State := state c; SessionID := sessionID c;
            ConnectionStatus :=
              if transport c then "connected" else "disconnected" |}).

(** The capacity of [audioSendChan]: [make(chan []byte, 100)]. *)
Definition audioSendCap : nat := 100.

(** [SendAudio].  The frames buffered in [c.audioSendChan] are passed in
    and handed back, oldest first; the send of the [select] goes through
    exactly when the buffer has room, its [default] is taken otherwise. *)
Definition SendAudio (data : string) (audioSendChan : list string)
  : method (error * list string) :=
  sending <- audioCtrl_IsSending ;;
  if sending then
    if decide (length audioSendChan < audioSendCap)%nat then
      logf LevelDebug "Audio data sent" ;;
      ret (None, (audioSendChan ++ [data])%list)
    else ret (Some "audio send buffer full", audioSendChan)
  else ret (Some "audio stream not started", audioSendChan).

(** One turn of the loop of [startAudioCapture] on a chunk read from the
    recorder's channel.  The second operand of [&&] is evaluated only when
    the first holds; the log record of the other branch reads the state
    and the controller again for its attributes. *)
Definition capture_turn (data : string) (audioSendChan : list string)
  : method (list string) :=
  s <- GetState ;;
  sending <- (if decide (s = DeviceStateListening)
              then audioCtrl_IsSending else ret false) ;;
  if sending then
    r <- SendAudio data audioSendChan ;;
    (if fst r is Some _
     then GetState ;; logf LevelWarn "Failed to send audio data"
     else ret tt) ;;
    ret (snd r)
  else
    GetState ;;
    audioCtrl_IsSending ;;
    logf LevelDebug "Skipping audio send" ;;
    ret audioSendChan.

(** [audioSender] on the frames it takes from [audioSendChan] before the
    close signal, each with what [transport.Send] would return for it.
    The value is the list of the frames handed to [transport.Send], the
    failing one included: a failed send ends the loop. *)
Fixpoint audioSender_loop (frames : list (string * error))
  : method (list string) :=
  match frames with
  | [] => ret []
  | (data, send) :: rest =>
      sending <- audioCtrl_IsSending ;;
      if sending then
        match send with
        | Some _ => logf LevelError "Failed to send audio" ;; ret [data]
        | None => sent <- audioSender_loop rest ;; ret (data :: sent)
        end
      else audioSender_loop rest
  end.

Definition audioSender (frames : list (string * error))
  : method (list string) :=
  logf LevelDebug "Starting audio sender" ;;
  sent <- audioSender_loop frames ;;
  logf LevelDebug "Audio sender stopped" ;;
  ret sent.

(** ** Sequences of requests *)

(** What the owner of a client and its inbound pump ask of it. *)
Inductive request : Type :=
| AskConnect (d : dialing)
| AskClose (q : closing)
| AskStartListening (mode : ListenMode) (send : error)
| AskStopListening (send : error)
| AskBeginAudioStream
| AskEndAudioStream
| Inbound (msg : Message) (w : replies).

Definition serve (r : request) : method unit :=
  match r with
  | AskConnect d => Connect d ;; ret tt
  | AskClose q => Close q ;; ret tt
  | AskStartListening mode send => StartListening mode send ;; ret tt
  | AskStopListening send => StopListening send ;; ret tt
  | AskBeginAudioStream => BeginAudioStream ;; ret tt
  | AskEndAudioStream => EndAudioStream
  | Inbound msg w => messageHandler_turn msg w
  end.

(** The client after a sequence of requests, each served whether or not
    the one before returned an error or panicked (a caller that recovers
    from a panic finds the client as the panic left it). *)
Fixpoint after_requests (rs : list request) (c : Client) : Client :=
  match rs with
  | [] => c
  | r :: rs' => after_requests rs' (snd (serve r c))
  end.

(** A method that keeps the property [P] of the client. *)
Definition keeps {A} (P : Client -> Prop) (m : method A) : Prop :=
  forall c : Client, P c -> P (snd (m c)).

End Core.

(* ===================================================================== *)
(** * A session, step by step *)
(* ===================================================================== *)

Module Scenario.
Import Audio Core.

Local Open Scope string_scope.

Definition cfg : Config :=
  {| Transport := "websocket"; Websocket := true;
     SampleRate := 16000; Channels := 1; FrameDuration := 60 |}.

(** The server answers and nothing fails. *)
Definition reachable : dialing :=
  {| NewWebSocketProtocol := None; Dial := None; Hello := None |}.

Definition quiet : closing :=
  {| StopTaken := true; TransportClose := None |}.

(** {"type":"hello","session_id":"abc"} *)
Definition hello_abc : object :=
  <["type" := JString "hello"]> (<["session_id" := JString "abc"]> ∅).

(** {"type":"hello"} *)
Definition hello_bare : object :=
  <["type" := JString "hello"]> ∅.

(** {"type":"tts","state":"start"} *)
Definition tts_start : object :=
  <["type" := JString "tts"]> (<["state" := JString "start"]> ∅).

(** {"type":"tts"} *)
Definition tts_bare : object :=
  <["type" := JString "tts"]> ∅.

(** After [NewClient] and a successful [Connect]. *)
Definition connected : Client := snd (Connect reachable (NewClient cfg)).

(** After the server's hello has been handled. *)
Definition greeted : Client :=
  snd (handleMessage (Decoded hello_abc) None connected).

(** After [Close]. *)
Definition closed : Client := snd (Close quiet greeted).

End Scenario.
(* ===================================================================== *)
(** * audio/recorder.go and the encoder of audio/opus_codec.go *)
(* ===================================================================== *)

Module Recorder.

Local Open Scope string_scope.

(** Two's-complement wrap-around of [int16] arithmetic. *)
Definition wrap16 (z : Z) : Z := (z + 2 ^ 15) mod 2 ^ 16 - 2 ^ 15.

(** [int16(x)] for a byte [x]. *)
Definition int16_of_byte (x : byte) : Z := Z.of_N (Byte.to_N x).

(** [int16(b[i*2]) | int16(b[i*2+1])<<8]; [None] stands for the panic of
    an index out of range. *)
Definition sample (b : list byte) (i : nat) : option Z :=
  lo ← b !! (i * 2)%nat;
  hi ← b !! (i * 2 + 1)%nat;
  Some (Z.lor (int16_of_byte lo) (wrap16 (Z.shiftl (int16_of_byte hi) 8))).

(** [if len(b)%2 != 0 { b = b[:len(b)-1] }] *)
Definition even_part (b : list byte) : list byte :=
  if decide (length b mod 2 = 0)%nat then b else take (length b - 1) b.

(** [bytesToInt16]: an odd last byte is cut off, then [pcm[i]] is filled
    for [i] from 0 to [len(b)/2 - 1]. *)
Definition bytesToInt16 (b : list byte) : option (list Z) :=
  let b' := even_part b in
  mapM (sample b') (seq 0 (length b' / 2)).

(** What a Go function with results [(T, error)] returns. *)
Inductive returned (A : Type) : Type :=
| Value (a : A)
| Failure (err : string).
Arguments Value {A} a.
Arguments Failure {A} err.

(** [OpusEncoder]: [encoder] tells whether the field is non-nil. *)
Record OpusEncoder : Type := mkEncoder {
  encoder : bool
}.

(** [Encode]; [lib] is what the library's [Encode(pcm, data)] does with
    the 4000-byte buffer: the bytes it wrote, or its error. *)
Definition Encode (pcm : list Z) (lib : returned (list byte))
    (e : OpusEncoder) : returned (list byte) :=
  if encoder e then
    match lib with
    | Failure err => Failure ("opus encode failed: " ++ err)
    | Value data => Value data
    end
  else Failure "encoder not initialized".

(** [Close] of [OpusEncoder] *)
Definition Close (e : OpusEncoder) : OpusEncoder := {| encoder := false |}.

(** [audio.Config] *)
Record Config : Type := mkConfig {
  SampleRate : Z;
  Channels : Z;
  FrameDuration : Z
}.

(** [recorder]: the encoder is held by pointer, so what [Record] does to
    it stays done. *)
Record recorder : Type := mkRecorder {
  config : Config;
  opusEncoder : OpusEncoder
}.

(** [(SampleRate * Channels * FrameDuration) / 1000] on 64-bit [int]s;
    [/] rounds towards zero. *)
Definition frameSize (cfg : Config) : Z :=
  Z.quot
    (Utils.wrap64 (Utils.wrap64 (SampleRate cfg * Channels cfg)
                   * FrameDuration cfg))
    1000.

(** How the [select] that offers a frame on [dataChan] ends: the
    consumer takes it, 100ms pass, or the context is cancelled. *)
Inductive handover : Type := Taken | TimedOut | Cancelled.

(** One call of the capture callback by the device: the PCM bytes it
    brings, what the library's encoder makes of them, and how the offer
    of the frame ends. *)
Record period : Type := mkPeriod {
  pcmData : list byte;
  encoded : returned (list byte);
  offer : handover
}.

(** What the audio library answers during one [Record], and the periods
    it delivers before the context is cancelled. *)
Record device : Type := mkDevice {
  InitContext : Core.error;
  InitDevice : Core.error;
  Start : Core.error;
  periods : list period
}.

(** What one [Record] amounts to: the error it returns, the frames it put
    on [dataChan], the records it logged. *)
Record recording : Type := mkRecording {
  err : Core.error;
  delivered : list (list byte);
  logs : list (Core.level * string)
}.

(** The capture callback; [None] stands for a panic. *)
Definition captureCallback (p : period) (e : OpusEncoder)
  : option (list (list byte) * list (Core.level * string)) :=
  pcm ← bytesToInt16 (pcmData p);
  match Encode pcm (encoded p) e with
  | Failure _ => Some ([], [(Core.LevelError, "OPUS encode failed")])
  | Value opusData =>
      match offer p with
      | Taken => Some ([opusData], [])
      | TimedOut =>
          Some ([], [(Core.LevelWarn,
                      "Audio channel blocked, dropping frame")])
      | Cancelled => Some ([], [])
      end
  end.

Fixpoint capture (ps : list period) (e : OpusEncoder)
  : option (list (list byte) * list (Core.level * string)) :=
  match ps with
  | [] => Some ([], [])
  | p :: ps' =>
      '(frames, records) ← captureCallback p e;
      '(frames', records') ← capture ps' e;
      Some ((frames ++ frames')%list, (records ++ records')%list)
  end.

(** [Record] of [recorder].  The deferred call closes the encoder on every
    way out.  The log is that of a device which calls back once [Start]
    has returned.  [None] stands for a panic. *)
Definition Record_ (d : device) (r : recorder)
  : option recording * recorder :=
  let r' := {| config := config r; opusEncoder := Close (opusEncoder r) |} in
  let failed (msg : string) :=
    (Some {| err := Some msg; delivered := []; logs := [] |}, r') in
  if (frameSize (config r) <=? 0)%Z then
    failed ("invalid frame size: " ++ pretty (frameSize (config r)))
  else
    match InitContext d with
    | Some e => failed ("failed to initialize audio context: " ++ e)
    | None =>
        match InitDevice d with
        | Some e => failed ("failed to initialize audio device: " ++ e)
        | None =>
            match Start d with
            | Some e => failed ("failed to start audio device: " ++ e)
            | None =>
                (match capture (periods d) (opusEncoder r) with
                 | None => None
                 | Some (frames, records) =>
                     Some {| err := None; delivered := frames;
                             logs := ((Core.LevelInfo,
                                       "Audio recording started")
                                      :: records
                                      ++ [(Core.LevelInfo,
                                           "Audio recording stopped")])%list |}
                 end, r')
            end
        end
    end.

End Recorder.

(* ===================================================================== *)
(** * The PCM player of audio/opus_codec.go (chunk after chunk) *)
(* ===================================================================== *)

Module Player.

(** [float32(x) / 32768.0] for an [int16] [x]: both the conversion and
    the division by a power of two are exact in [float32], so the value
    is the rational [x / 32768]. *)
Definition to_float (x : Z) : Q := Qmake x 32768.

(** [out[channel][sample] = v]; [None] stands for the panic of an index
    out of range. *)
Definition store (out : list (list Q)) (channel sample : nat) (v : Q)
  : option (list (list Q)) :=
  row ← out !! channel;
  if decide (sample < length row)%nat
  then Some (<[channel := <[sample := v]> row]> out)
  else None.

(** The loop over one chunk taken from [p.buffer]: it writes sample after
    sample at the place [processed] stands for, until the chunk ends or
    [totalSamples] is reached. *)
Fixpoint fill_chunk (chunk : list Z) (processed totalSamples : nat)
    (out : list (list Q)) : option (nat * list (list Q)) :=
  match chunk with
  | [] => Some (processed, out)
  | x :: chunk' =>
      if decide (processed < totalSamples)%nat then
        out' ← store out (processed mod length out) (processed / length out)
                 (to_float x);
        fill_chunk chunk' (S processed) totalSamples out'
      else Some (processed, out)
  end.

(** The loop of the [default] case, which writes [left] zeros. *)
Fixpoint fill_silence (left processed : nat) (out : list (list Q))
  : option (list (list Q)) :=
  match left with
  | O => Some out
  | S left' =>
      out' ← store out (processed mod length out) (processed / length out) 0%Q;
      fill_silence left' (S processed) out'
  end.

(** The outer loop: while [processed < totalSamples], take the next
    chunk if [p.buffer] holds one, else fill up with silence and return.
    The value is the output and the chunks left in the buffer. *)
Fixpoint callback_loop (buffer : list (list Z)) (processed totalSamples : nat)
    (out : list (list Q)) : option (list (list Q) * list (list Z)) :=
  if decide (processed < totalSamples)%nat then
    match buffer with
    | chunk :: buffer' =>
        '(processed', out') ← fill_chunk chunk processed totalSamples out;
        callback_loop buffer' processed' totalSamples out'
    | [] =>
        out' ← fill_silence (totalSamples - processed) processed out;
        Some (out', [])
    end
  else Some (out, buffer).

(** [audioCallback]: [len(out) * len(out[0])] panics on an [out] without
    channels. *)
Definition audioCallback (out : list (list Q)) (buffer : list (list Z))
  : option (list (list Q) * list (list Z)) :=
  match out with
  | [] => None
  | row :: _ => callback_loop buffer 0 (length out * length row) out
  end.

(** The output sample that the place [p] of the interleaved order stands
    for. *)
Definition cell (out : list (list Q)) (p : nat) : option Q :=
  row ← out !! (p mod length out)%nat; row !! (p / length out)%nat.

(** [out] has [nch] channels of [nfr] samples each. *)
Definition shaped (nch nfr : nat) (out : list (list Q)) : Prop :=
  length out = nch /\ Forall (fun row => length row = nfr) out.

(** The sample the place [q] gets: the one at [q] in the chunks laid end
    to end, silence behind their end. *)
Definition played (stream : list Z) (q : nat) : Q :=
  match stream !! q with
  | Some x => to_float x
  | None => 0%Q
  end.

End Player.

(* ===================================================================== *)
(** * The logger package *)
(* ===================================================================== *)

Module Logger.

Local Open Scope string_scope.

(** [logger.Config] *)
Record Config : Type := mkConfig {
  Level : string;
  Outputs : list string
}.

(** [slog.Level], the four named ones. *)
Inductive slogLevel : Type :=
| SlogDebug | SlogInfo | SlogWarn | SlogError.

Inductive writer : Type :=
| Stdout
| File (path : string).

(** What the file system answers to [os.MkdirAll] of the directory of an
    output and to [os.OpenFile] of the output. *)
Record filesystem : Type := mkFilesystem {
  MkdirAll : string -> Core.error;
  OpenFile : string -> Core.error
}.

(** The package variables: the logger (its level and writers) when one is
    set, and whether [once] has run. *)
Record globals : Type := mkGlobals {
  globalLogger : option (slogLevel * list writer);
  once : bool
}.

Definition level_of (s : string) : slogLevel :=
  if decide (s = "debug") then SlogDebug
  else if decide (s = "warn") then SlogWarn
  else if decide (s = "error") then SlogError
  else SlogInfo.

(** The loop over [cfg.Outputs]. *)
Fixpoint writers_of (fs : filesystem) (outputs : list string)
  : Core.result (list writer) :=
  match outputs with
  | [] => Core.Return []
  | output :: rest =>
      if decide (output = "" \/ output = "stdout") then
        match writers_of fs rest with
        | Core.Return ws => Core.Return (Stdout :: ws)
        | Core.Panic msg => Core.Panic msg
        end
      else
        match MkdirAll fs output with
        | Some e => Core.Panic e
        | None =>
            match OpenFile fs output with
            | Some e => Core.Panic e
            | None =>
                match writers_of fs rest with
                | Core.Return ws => Core.Return (File output :: ws)
                | Core.Panic msg => Core.Panic msg
                end
            end
        end
  end.

(** [Init].  The function given to [once.Do] declares its own [err]s, so
    the [err] that [Init] returns is never assigned; [sync.Once] counts a
    call that panicked as done. *)
Definition Init (cfg : Config) (fs : filesystem) (g : globals)
  : Core.result Core.error * globals :=
  if once g then (Core.Return None, g)
  else
    match writers_of fs (Outputs cfg) with
    | Core.Panic msg =>
        (Core.Panic msg, {| globalLogger := globalLogger g; once := true |})
    | Core.Return ws =>
        (Core.Return None,
         {| globalLogger :=
              Some (level_of (Level cfg),
                    if ws is [] then [Stdout] else ws);
            once := true |})
    end.

(** An output that needs no file, or whose directory and file can be
    made. *)
Definition usable (fs : filesystem) (output : string) : Prop :=
  output = "" \/ output = "stdout" \/
  (MkdirAll fs output = None /\ OpenFile fs output = None).

End Logger.

(* ===================================================================== *)
(** * protocols/websocket/transport.go *)
(* ===================================================================== *)

Module WebSocket.

Local Open Scope string_scope.

(** The frame types of the websocket library: [websocket.TextMessage]
    and [websocket.BinaryMessage]. *)
Definition TextMessage : Z := 1.
Definition BinaryMessage : Z := 2.

Definition convertMsgType (wsType : Z) : Core.MessageType :=
  if decide (wsType = TextMessage) then Core.MsgText
  else if decide (wsType = BinaryMessage) then Core.MsgBinary
  else Core.MsgControl.

(** [WSProtocol]: [conn] tells whether the connection is non-nil,
    [closeChan] whether the channel has been closed. *)
Record WSProtocol : Type := mkWSProtocol {
  conn : bool;
  closeChan : bool
}.

(** [NewWebSocketProtocol] *)
Definition NewWebSocketProtocol : WSProtocol :=
  {| conn := false; closeChan := false |}.

(** [Connect]; [dial] is the error of [dialer.DialContext], if any. *)
Definition Connect (dial : Core.error) (p : WSProtocol)
  : Core.error * WSProtocol :=
  match dial with
  | Some e => (Some ("connection failed: " ++ e), p)
  | None => (None, {| conn := true; closeChan := closeChan p |})
  end.

(** [Send]: the error it returns and, when it reaches
    [conn.WriteMessage], the frame type it writes; [write] is the error
    of [WriteMessage], if any. *)
Definition Send (msgType : Core.MessageType) (write : Core.error)
    (p : WSProtocol) : Core.error * option Z :=
  if conn p then
    (write,
     Some (match msgType with
           | Core.MsgBinary => BinaryMessage
           | _ => TextMessage
           end))
  else (Some "connection failed", None).

(** [readPump] on the frames that [conn.ReadMessage] returns before its
    first error. *)
Definition readPump (frames : list (Z * string)) : list Core.Message :=
  map (fun f => Core.mkMessage (snd f) (convertMsgType (fst f))) frames.

(** [Close]; [close] is the error of [conn.Close], if any. *)
Definition Close (close : Core.error) (p : WSProtocol)
  : Core.result Core.error * WSProtocol :=
  if closeChan p then (Core.Panic "close of closed channel", p)
  else
    (Core.Return (if conn p then close else None),
     {| conn := conn p; closeChan := true |}).

End WebSocket.

(* ===================================================================== *)
(** * Properties of the controller *)
(* ===================================================================== *)

Module AudioFacts.
Import Audio.

Lemma half_duplex_new : half_duplex NewController.
Proof. reflexivity. Qed.

Lemma perform_half_duplex k c :
  half_duplex c -> half_duplex (snd (perform k c)).
Proof.
  unfold half_duplex.
  destruct c as [s r], k; cbn; destruct s, r; cbn; congruence.
Qed.

Lemma history_half_duplex ks : forall c,
  half_duplex c -> Forall half_duplex (history ks c).
Proof.
  induction ks as [|k ks IH]; intros c Hc; cbn.
  - constructor; [exact Hc | constructor].
  - constructor; [exact Hc |].
    apply IH, perform_half_duplex, Hc.
Qed.

(** C1.  Half-duplex invariant: whatever sequence of calls to the six
    methods the controller serves from its initial state, none of the
    states it goes through has [isSending] and [isReceiving] both set; and
    each of the six methods, run in a state that satisfies the invariant,
    leaves a state that satisfies it. *)
Theorem C1_half_duplex_invariant :
  (forall ks : list call, Forall half_duplex (history ks NewController)) /\
  (forall (k : call) (c : controller),
      half_duplex c -> half_duplex (snd (perform k c))).
Proof.
  split.
  - intros ks. apply history_half_duplex, half_duplex_new.
  - intros k c. apply perform_half_duplex.
Qed.

Lemma C1_half_duplex_invariant_witness :
  Forall half_duplex
    (history [CallStartSending; CallStartReceiving; CallStopSending;
              CallStartReceiving; CallStartSending; CallIsReceiving]
       NewController) /\
  half_duplex {| isSending := true; isReceiving := false |} /\
  half_duplex
    (snd (perform CallStartReceiving
            {| isSending := true; isReceiving := false |})).
Proof.
  split; [apply (proj1 C1_half_duplex_invariant) |].
  split; [reflexivity |].
  apply (proj2 C1_half_duplex_invariant). reflexivity.
Defined.

(** C2.  Start-call contract: [StartSending] answers [true] exactly when
    [isReceiving] is clear; when it answers [true] the new state has
    [isSending] set and [isReceiving] as before, when it answers [false]
    the state is the one it was called in.  [StartReceiving] is the
    mirror image. *)
Theorem C2_start_contract (c : controller) :
  (fst (StartSending c) = true <-> isReceiving c = false) /\
  (isReceiving c = false ->
     StartSending c = (true, {| isSending := true; isReceiving := false |})) /\
  (isReceiving c = true -> StartSending c = (false, c)) /\
  (fst (StartReceiving c) = true <-> isSending c = false) /\
  (isSending c = false ->
     StartReceiving c = (true, {| isSending := false; isReceiving := true |})) /\
  (isSending c = true -> StartReceiving c = (false, c)).
Proof.
  destruct c as [s r]; unfold StartSending, StartReceiving; cbn.
  destruct s, r; cbn; repeat split; intros; congruence.
Qed.

Lemma C2_start_contract_witness :
  StartSending {| isSending := false; isReceiving := true |}
    = (false, {| isSending := false; isReceiving := true |}) /\
  StartSending {| isSending := false; isReceiving := false |}
    = (true, {| isSending := true; isReceiving := false |}) /\
  StartReceiving {| isSending := true; isReceiving := false |}
    = (false, {| isSending := true; isReceiving := false |}) /\
  StartReceiving {| isSending := false; isReceiving := false |}
    = (true, {| isSending := false; isReceiving := true |}).
Proof.
  split; [| split; [| split]].
  - apply (C2_start_contract {| isSending := false; isReceiving := true |});
      reflexivity.
  - apply (C2_start_contract {| isSending := false; isReceiving := false |});
      reflexivity.
  - apply (C2_start_contract {| isSending := true; isReceiving := false |});
      reflexivity.
  - apply (C2_start_contract {| isSending := false; isReceiving := false |});
      reflexivity.
Defined.

(** C9.  Idempotent stop: [StopSending] in a state where [isSending] is
    already clear, and [StopReceiving] where [isReceiving] is already
    clear, return the state unchanged; either stop applied twice gives
    what it gives applied once.  (Neither method has an error result.) *)
Theorem C9_stop_idempotent (c : controller) :
  (isSending c = false -> StopSending c = c) /\
  (isReceiving c = false -> StopReceiving c = c) /\
  StopSending (StopSending c) = StopSending c /\
  StopReceiving (StopReceiving c) = StopReceiving c.
Proof.
  destruct c as [s r]; unfold StopSending, StopReceiving; cbn.
  repeat split; intros; congruence.
Qed.

Lemma C9_stop_idempotent_witness :
  StopSending {| isSending := false; isReceiving := true |}
    = {| isSending := false; isReceiving := true |} /\
  StopReceiving {| isSending := true; isReceiving := false |}
    = {| isSending := true; isReceiving := false |}.
Proof.
  split.
  - apply (C9_stop_idempotent {| isSending := false; isReceiving := true |});
      reflexivity.
  - apply (C9_stop_idempotent {| isSending := true; isReceiving := false |});
      reflexivity.
Defined.

End AudioFacts.

(* ===================================================================== *)
(** * Properties of the reconnection policy *)
(* ===================================================================== *)

Module UtilsFacts.
Import Utils.

Lemma wrap64_small z : - 2 ^ 63 <= z < 2 ^ 63 -> wrap64 z = z.
Proof.
  intros Hz. unfold wrap64.
  rewrite Z.mod_small by lia. lia.
Qed.

Lemma in_range_new : in_range NewExponentialBackoff.
Proof.
  unfold in_range, NewExponentialBackoff, Second; cbn [currentDelay maxDelay].
  rewrite !wrap64_small by lia. lia.
Qed.

Lemma NextDelay_in_range e :
  in_range e ->
  fst (NextDelay e) = currentDelay e /\
  in_range (snd (NextDelay e)) /\
  currentDelay e <= currentDelay (snd (NextDelay e)) /\
  2 * Second <= currentDelay (snd (NextDelay e)).
Proof.
  unfold in_range, NextDelay, Second.
  destruct e as [cur cap]; cbn [currentDelay maxDelay fst snd].
  intros [[Hlo Hhi] Hcap]; subst cap.
  rewrite wrap64_small by lia.
  destruct (Z.gtb_spec (cur * 2) (30 * 1000000000)); lia.
Qed.

Lemma delays_between n : forall e,
  in_range e ->
  Forall (fun d => currentDelay e <= d <= 30 * Second) (delays n e).
Proof.
  induction n as [|n IH]; intros e He; cbn [delays].
  - constructor.
  - destruct (NextDelay_in_range e He) as (Hd & He' & Hle & _).
    destruct (NextDelay e) as [d e'] eqn:Hstep; cbn [fst snd] in *.
    constructor.
    + destruct He as [[_ Hhi] Hcap]. lia.
    + eapply Forall_impl; [apply IH, He' |].
      cbn beta. intros x Hx. lia.
Qed.

Lemma delays_sorted n : forall e,
  in_range e -> StronglySorted Z.le (delays n e).
Proof.
  induction n as [|n IH]; intros e He; cbn [delays].
  - constructor.
  - destruct (NextDelay_in_range e He) as (Hd & He' & Hle & _).
    pose proof (delays_between n _ He') as Hall.
    destruct (NextDelay e) as [d e'] eqn:Hstep; cbn [fst snd] in *.
    constructor; [apply IH, He' |].
    eapply Forall_impl; [exact Hall |].
    cbn beta. intros x Hx. lia.
Qed.

Lemma after_calls_in_range n : forall e,
  in_range e -> in_range (after_calls n e).
Proof.
  induction n as [|n IH]; intros e He; cbn [after_calls]; [exact He |].
  apply IH, NextDelay_in_range, He.
Qed.

Lemma after_calls_grown n : forall e,
  in_range e -> 2 * Second <= currentDelay (after_calls (S n) e).
Proof.
  induction n as [|n IH]; intros e He.
  - cbn [after_calls]. apply NextDelay_in_range, He.
  - change (after_calls (S (S n)) e)
      with (after_calls (S n) (snd (NextDelay e))).
    apply IH, NextDelay_in_range, He.
Qed.

(** C6.  Backoff monotonicity and cap: the values returned by [n]
    successive calls of [NextDelay] on a fresh policy are in
    non-decreasing order and each is at most 30 seconds; when there is at
    least one call, the first value is 1 second. *)
Theorem C6_backoff_monotone_capped (n : nat) :
  StronglySorted Z.le (delays n NewExponentialBackoff) /\
  Forall (fun d => d <= 30 * Second) (delays n NewExponentialBackoff) /\
  head (delays (S n) NewExponentialBackoff) = Some (1 * Second).
Proof.
  split; [| split].
  - apply delays_sorted, in_range_new.
  - eapply Forall_impl; [apply delays_between, in_range_new |].
    cbn beta. intros x Hx. lia.
  - reflexivity.
Qed.

(** C7 (what the code does).  [ExponentialBackoff] has no [Reset]: its
    only method is [NextDelay], and once that has been called on a fresh
    policy, every later call returns at least 2 seconds, never the floor
    of 1 second again. *)
Theorem C7_floor_never_returns (n : nat) :
  2 * Second <= fst (NextDelay (after_calls (S n) NewExponentialBackoff)) /\
  fst (NextDelay (after_calls (S n) NewExponentialBackoff)) <> 1 * Second.
Proof.
  pose proof (after_calls_grown n _ in_range_new) as Hgrown.
  pose proof (after_calls_in_range (S n) _ in_range_new) as Hrange.
  destruct (NextDelay_in_range _ Hrange) as (Hd & _).
  rewrite Hd. unfold Second in *. lia.
Qed.

End UtilsFacts.

(* ===================================================================== *)
(** * Properties of the client *)
(* ===================================================================== *)

Module CoreFacts.
Import Audio Core.

Local Open Scope string_scope.

(** ** Running a method *)

Ltac fields :=
  cbn [fst snd state sessionID transport closeChan audioCtrl trace config
       perform answer StartSending StopSending StartReceiving StopReceiving
       IsSending IsReceiving isSending isReceiving
       Unmarshal Send Decode Play Payload MsgType
       StopTaken TransportClose] in *.

(** Unfolding of the plumbing of [method]. *)
Ltac run :=
  unfold handleTTSMessage, handleListenMessage, handleSTTMessage,
    handleLLMMessage, handleAbortMessage, handleErrorMessage,
    SendStartListening, sendJSON, StopAudioCapture,
    BeginAudioStream, EndAudioStream, setState, GetState,
    audioCtrl_StartSending, audioCtrl_StopSending,
    audioCtrl_StartReceiving, audioCtrl_StopReceiving,
    audioCtrl_IsSending, audioCtrl_IsReceiving, audioCtrl_call,
    logf, emit, set_state, set_sessionID, set_transport, set_closeChan,
    get, bind, ret, panic;
  fields.

(** Deciding the comparisons of strings a method makes. *)
Ltac decisions :=
  unfold DeviceStateUnknown, DeviceStateConnecting, DeviceStateIdle,
    DeviceStateListening, DeviceStateSpeaking, DeviceStateDisconnected in *;
  repeat (case_decide; fields; subst; try (discriminate || congruence)).

(** Picking the handler of a message whose [type] is known. *)
Ltac dispatch Htype :=
  unfold handleMessage; rewrite Htype;
  repeat (case_decide; try (discriminate || congruence)).

(** ** What a method leaves alone *)

Section Preserves.
Context {B : Type} (f : Client -> B).

Lemma preserves_ret {A} (a : A) : preserves f (ret a).
Proof. intros c. reflexivity. Qed.

Lemma preserves_panic {A} msg : preserves f (@panic A msg).
Proof. intros c. reflexivity. Qed.

Lemma preserves_get {A} (g : Client -> A) : preserves f (get g).
Proof. intros c. reflexivity. Qed.

Lemma preserves_bind {A A'} (m : method A) (k : A -> method A') :
  preserves f m -> (forall a, preserves f (k a)) -> preserves f (bind m k).
Proof.
  intros Hm Hk c. unfold bind.
  specialize (Hm c). destruct (m c) as [[a|msg] c1]; cbn [snd] in *.
  - rewrite Hk. exact Hm.
  - exact Hm.
Qed.

End Preserves.

Lemma sessionID_emit e : preserves sessionID (emit e).
Proof. intros c. reflexivity. Qed.

Lemma sessionID_set_state s : preserves sessionID (set_state s).
Proof. intros c. reflexivity. Qed.

Lemma sessionID_set_transport t : preserves sessionID (set_transport t).
Proof. intros c. reflexivity. Qed.

Lemma sessionID_set_closeChan b : preserves sessionID (set_closeChan b).
Proof. intros c. reflexivity. Qed.

Lemma sessionID_audioCtrl_call k : preserves sessionID (audioCtrl_call k).
Proof.
  intros c. unfold audioCtrl_call.
  destruct (perform k (audioCtrl c)). reflexivity.
Qed.

(** A method built from the steps above, by [bind] and by cases, leaves
    the session identifier alone. *)
Ltac frame :=
  repeat first
    [ apply preserves_ret
    | apply preserves_panic
    | apply preserves_get
    | apply sessionID_emit
    | apply sessionID_set_state
    | apply sessionID_set_transport
    | apply sessionID_set_closeChan
    | apply sessionID_audioCtrl_call
    | apply preserves_bind; [| intros ?]
    | match goal with
      | |- preserves _ (if ?b then _ else _) => destruct b
      | |- preserves _ (match ?x with _ => _ end) => destruct x
      end ].

Lemma sessionID_setState s : preserves sessionID (setState s).
Proof.
  unfold setState, GetState, logf, audioCtrl_StartSending,
    audioCtrl_StopSending.
  frame.
Qed.

Lemma sessionID_sendJSON data send : preserves sessionID (sendJSON data send).
Proof. unfold sendJSON, logf. frame. Qed.

Lemma sessionID_SendStartListening mode send :
  preserves sessionID (SendStartListening mode send).
Proof.
  unfold SendStartListening, GetState, logf.
  frame; first [apply sessionID_sendJSON | apply sessionID_setState].
Qed.

Lemma sessionID_Connect d : preserves sessionID (Connect d).
Proof.
  unfold Connect, logf.
  frame; first [apply sessionID_sendJSON | apply sessionID_setState].
Qed.

Lemma sessionID_Close q : preserves sessionID (Close q).
Proof.
  unfold Close, StopAudioCapture, logf.
  frame; apply sessionID_setState.
Qed.

Lemma sessionID_handlers (m : object) (send : error) :
  preserves sessionID (handleListenMessage m) /\
  preserves sessionID (handleTTSMessage m send) /\
  preserves sessionID (handleSTTMessage m) /\
  preserves sessionID (handleLLMMessage m) /\
  preserves sessionID (handleAbortMessage m) /\
  preserves sessionID (handleErrorMessage m).
Proof.
  unfold handleListenMessage, handleTTSMessage, handleSTTMessage,
    handleLLMMessage, handleAbortMessage, handleErrorMessage,
    BeginAudioStream, EndAudioStream, GetState, logf,
    audioCtrl_StartSending, audioCtrl_StopSending,
    audioCtrl_StartReceiving, audioCtrl_StopReceiving.
  repeat split; frame;
    first [apply sessionID_SendStartListening | apply sessionID_setState].
Qed.

Lemma sessionID_handleMessage_other (m : object) (send : error) :
  field_string m "type" <> Some "hello" ->
  preserves sessionID (handleMessage (Decoded m) send).
Proof.
  intros Hother.
  destruct (sessionID_handlers m send) as (Hl & Ht & Hs & Hm & Ha & He).
  unfold handleMessage, logf.
  destruct (field_string m "type") as [ty|]; frame;
    assumption || congruence.
Qed.

Lemma sessionID_handleMessage (msg : unmarshal) (send : error) (c : Client) :
  sessionID (snd (handleMessage msg send c)) <> sessionID c ->
  exists m : object,
    msg = Decoded m /\ field_string m "type" = Some "hello".
Proof.
  intros Hchanged.
  destruct msg as [e|m]; [exfalso; apply Hchanged; reflexivity |].
  exists m. split; [reflexivity |].
  destruct (decide (field_string m "type" = Some "hello")) as [Hty|Hty];
    [exact Hty |].
  exfalso. apply Hchanged, sessionID_handleMessage_other, Hty.
Qed.

(** ** The state machine *)

Lemma setState_same (c : Client) : setState (state c) c = (Return tt, c).
Proof.
  unfold setState, GetState, get, bind, ret.
  destruct (decide (state c = state c)) as [_|Hne]; [reflexivity | congruence].
Qed.

(** C10.  A self-transition is a no-op: [setState s] in a client whose
    state is already [s] returns the client as it was -- same state, same
    controller flags, and nothing added to the trace (no controller call,
    no write to the state, no log record).  So whenever [setState s]
    changes anything at all, [s] differs from the state it was called
    in. *)
Theorem C10_setState_self_transition (c : Client) :
  setState (state c) c = (Return tt, c) /\
  (forall s : DeviceState, snd (setState s c) <> c -> s <> state c).
Proof.
  split; [apply setState_same |].
  intros s Hchanged ->. apply Hchanged.
  rewrite setState_same. reflexivity.
Qed.

Lemma C10_setState_self_transition_witness :
  setState DeviceStateListening Scenario.greeted
    = (Return tt, Scenario.greeted) /\
  DeviceStateSpeaking <> state Scenario.greeted.
Proof.
  split.
  - apply (proj1 (C10_setState_self_transition Scenario.greeted)).
  - apply (proj2 (C10_setState_self_transition Scenario.greeted)).
    vm_compute. discriminate.
Defined.

(** C4.  TTS start: whatever state the client is in, handling a decoded
    message whose [type] is "tts" and whose [state] is "start" returns
    without error; afterwards the controller is not sending, the device
    state is "speaking" and the controller is receiving; and the call of
    the controller's [StopSending] comes before any write to the device
    state. *)
Theorem C4_tts_start (c : Client) (m : object) (send : error) :
  field_string m "type" = Some "tts" ->
  field_string m "state" = Some "start" ->
  exists c' : Client,
    handleMessage (Decoded m) send c = (Return None, c') /\
    IsSending (audioCtrl c') = false /\
    state c' = DeviceStateSpeaking /\
    IsReceiving (audioCtrl c') = true /\
    exists before after : list event,
      trace c' = (trace c ++ before ++ Controller CallStopSending :: after)%list /\
      existsb is_state_change before = false.
Proof.
  intros Htype Hstate.
  destruct c as [cfg st sid tr cl [sending receiving] t].
  dispatch Htype.
  unfold handleTTSMessage. rewrite Hstate.
  run. decisions.
  all: eexists; split; [reflexivity |]; fields;
    do 3 (split; [reflexivity |]);
    exists [Logged LevelInfo "Handling message"]; eexists;
    rewrite <- !app_assoc; split; reflexivity.
Qed.

Lemma C4_tts_start_witness :
  exists c' : Client,
    handleMessage (Decoded Scenario.tts_start) None Scenario.greeted
      = (Return None, c') /\
    IsSending (audioCtrl c') = false /\
    state c' = DeviceStateSpeaking /\
    IsReceiving (audioCtrl c') = true /\
    exists before after : list event,
      trace c' = (trace Scenario.greeted ++ before
                  ++ Controller CallStopSending :: after)%list /\
      existsb is_state_change before = false.
Proof.
  apply (C4_tts_start Scenario.greeted Scenario.tts_start None);
    vm_compute; reflexivity.
Defined.

(** ** The dispatcher and messages that lack a field *)

Lemma hello_without_session_id_panics (c : Client) (m : object) (send : error) :
  field_string m "type" = Some "hello" ->
  field_string m "session_id" = None ->
  exists msg c',
    handleMessage (Decoded m) send c = (Panic msg, c') /\
    sessionID c' = sessionID c.
Proof.
  intros Htype Hsid. dispatch Htype.
  unfold handleHelloResponse, field_string in *.
  destruct (m !! "session_id") as [[| | |sid| |]|]; try discriminate;
    eexists _, _; (split; [reflexivity |]); reflexivity.
Qed.

(** The five other cases of a missing field: the handler returns an error,
    touches neither the state, the session identifier nor the controller,
    and the pump logs the error and goes on with the next message. *)
Lemma missing_field_is_survived (c : Client) (m : object)
    (a : ascii) (data : string) (send dec play : error)
    (rest : list (Message * replies)) :
  lacks_required_field m ->
  exists (e : string) (c' : Client),
    handleMessage (Decoded m) send c = (Return (Some e), c') /\
    state c' = state c /\ sessionID c' = sessionID c /\
    audioCtrl c' = audioCtrl c /\
    messageHandler
      ((mkMessage (String a data) MsgText, mkReplies (Decoded m) send dec play)
         :: rest) c
    = messageHandler rest
        (snd (logf LevelError "Failed to handle text message" c')).
Proof.
  intros Hlacks.
  assert (Hturn : forall e c',
    handleMessage (Decoded m) send c = (Return (Some e), c') ->
    messageHandler
      ((mkMessage (String a data) MsgText, mkReplies (Decoded m) send dec play)
         :: rest) c
    = messageHandler rest
        (snd (logf LevelError "Failed to handle text message" c'))).
  { intros e c' Hrun. cbn [messageHandler].
    unfold messageHandler_turn, handleTextMessage. fields.
    case_decide; [discriminate |].
    unfold bind at 1 2. rewrite Hrun. reflexivity. }
  destruct Hlacks as [[Hty Hf]|[[Hty Hf]|[[Hty Hf]|[[Hty Hf]|[Hty Hf]]]]].
  - eexists _, _. split; [| split; [| split; [| split]]].
    + dispatch Hty. unfold handleTTSMessage. rewrite Hf. reflexivity.
    + reflexivity.
    + reflexivity.
    + reflexivity.
    + eapply Hturn. dispatch Hty. unfold handleTTSMessage. rewrite Hf.
      reflexivity.
  - eexists _, _. split; [| split; [| split; [| split]]].
    + dispatch Hty. unfold handleListenMessage. rewrite Hf. reflexivity.
    + reflexivity.
    + reflexivity.
    + reflexivity.
    + eapply Hturn. dispatch Hty. unfold handleListenMessage. rewrite Hf.
      reflexivity.
  - destruct (field_string m "session_id") eqn:Hsid;
      (eexists _, _; split; [| split; [| split; [| split]]];
       [ dispatch Hty; unfold handleSTTMessage; rewrite Hsid, ?Hf; reflexivity
       | reflexivity | reflexivity | reflexivity
       | eapply Hturn; dispatch Hty; unfold handleSTTMessage;
         rewrite Hsid, ?Hf; reflexivity ]).
  - destruct (field_string m "session_id") eqn:Hsid;
      (eexists _, _; split; [| split; [| split; [| split]]];
       [ dispatch Hty; unfold handleLLMMessage; rewrite Hsid, ?Hf; reflexivity
       | reflexivity | reflexivity | reflexivity
       | eapply Hturn; dispatch Hty; unfold handleLLMMessage;
         rewrite Hsid, ?Hf; reflexivity ]).
  - eexists _, _. split; [| split; [| split; [| split]]].
    + dispatch Hty. unfold handleErrorMessage. rewrite Hf. reflexivity.
    + reflexivity.
    + reflexivity.
    + reflexivity.
    + eapply Hturn. dispatch Hty. unfold handleErrorMessage. rewrite Hf.
      reflexivity.
Qed.

Example tts_without_state_is_survived :
  exists c' : Client,
    handleMessage (Decoded Scenario.tts_bare) None Scenario.greeted
      = (Return (Some "missing state field"), c') /\
    state c' = state Scenario.greeted /\
    audioCtrl c' = audioCtrl Scenario.greeted.
Proof.
  destruct (missing_field_is_survived Scenario.greeted Scenario.tts_bare
              "{"%char "}" None None None [])
    as (e & c' & Hrun & Hstate & _ & Hctrl & _).
  - left. split; reflexivity.
  - exists c'. rewrite Hrun in *. split; [| split; assumption].
    vm_compute in Hrun. congruence.
Qed.

(** C3 (what the code does).  A hello without [session_id] is not
    survived: for the decoded message {"type":"hello"}, in any client
    state, [handleMessage] panics on the type assertion of
    [handleHelloResponse], and so does the inbound pump when the message
    is at the head of its inbox, whatever follows it: the messages behind
    it are never handled. *)
Theorem C3_hello_without_session_id
    (c : Client) (a : ascii) (data : string) (send dec play : error)
    (rest : list (Message * replies)) :
  fst (handleMessage (Decoded Scenario.hello_bare) send c)
    = Panic "interface conversion: interface {} is nil, not string" /\
  fst (messageHandler
         ((mkMessage (String a data) MsgText,
           mkReplies (Decoded Scenario.hello_bare) send dec play) :: rest) c)
    = Panic "interface conversion: interface {} is nil, not string".
Proof.
  split; [reflexivity |].
  cbn [messageHandler]. unfold messageHandler_turn, handleTextMessage. fields.
  case_decide; [discriminate |]. reflexivity.
Qed.

(** C8 (as amended).  The empty object: for the decoded message {}, in any
    client state, [handleMessage] writes one error record to the log and
    returns the error "message type is missing"; the device state, the
    session identifier and the controller are as before; and the inbound
    pump logs the returned error and goes on with the rest of its
    inbox. *)
Theorem C8_empty_object
    (c : Client) (send dec play : error) (rest : list (Message * replies)) :
  handleMessage (Decoded ∅) send c
    = (Return (Some "message type is missing"),
       snd (logf LevelError "Received message without type field" c)) /\
  state (snd (handleMessage (Decoded ∅) send c)) = state c /\
  sessionID (snd (handleMessage (Decoded ∅) send c)) = sessionID c /\
  audioCtrl (snd (handleMessage (Decoded ∅) send c)) = audioCtrl c /\
  messageHandler
    ((mkMessage "{}" MsgText, mkReplies (Decoded ∅) send dec play) :: rest) c
  = messageHandler rest
      (snd (logf LevelError "Failed to handle text message"
         (snd (logf LevelError "Received message without type field" c)))).
Proof.
  repeat split; reflexivity.
Qed.

(** C8 as stated fails: [handleMessage] on {} returns an error, not
    [nil]. *)
Lemma C8_empty_object_returns_error :
  fst (handleMessage (Decoded ∅) None Scenario.connected)
    = Return (Some "message type is missing") /\
  fst (handleMessage (Decoded ∅) None Scenario.connected) <> Return None.
Proof.
  split; [reflexivity | discriminate].
Qed.

(** ** The session identifier *)

(** C5 (as amended).  The session identifier is the empty string in a new
    client; [Connect] leaves it alone; [handleMessage] changes it only on
    a message of type "hello"; and [Close] leaves it alone too: when
    [Close] runs on a client whose [closeChan] is open and the transport,
    if there is one, closes without error, it returns [nil] with the
    device state "disconnected" and the session identifier it found. *)
Theorem C5_sessionID_lifecycle :
  (forall cfg : Config, sessionID (NewClient cfg) = "") /\
  (forall (d : dialing) (c : Client),
      sessionID (snd (Connect d c)) = sessionID c) /\
  (forall (msg : unmarshal) (send : error) (c : Client),
      sessionID (snd (handleMessage msg send c)) <> sessionID c ->
      exists m : object,
        msg = Decoded m /\ field_string m "type" = Some "hello") /\
  (forall (q : closing) (c : Client),
      sessionID (snd (Close q c)) = sessionID c) /\
  (forall (q : closing) (c : Client),
      closeChan c = false ->
      transport c = false \/ TransportClose q = None ->
      exists c' : Client,
        Close q c = (Return None, c') /\
        state c' = DeviceStateDisconnected /\
        sessionID c' = sessionID c).
Proof.
  split; [reflexivity |].
  split; [intros d; apply sessionID_Connect |].
  split; [apply sessionID_handleMessage |].
  split; [intros q; apply sessionID_Close |].
  intros [taken closeErr] c Hopen Hclose.
  destruct c as [cfg st sid tr cl ctrl t]. fields. subst cl.
  assert ((if tr then closeErr else None) = None) as Hnil.
  { destruct tr; [destruct Hclose as [|Hq]; [discriminate | exact Hq]
                 | reflexivity]. }
  unfold Close. run.
  destruct taken; fields; rewrite Hnil; decisions;
    eexists; (split; [reflexivity |]); split; reflexivity.
Qed.

Lemma C5_sessionID_lifecycle_witness :
  exists c' : Client,
    Close Scenario.quiet Scenario.greeted = (Return None, c') /\
    state c' = DeviceStateDisconnected /\
    sessionID c' = sessionID Scenario.greeted.
Proof.
  apply (proj2 (proj2 (proj2 (proj2 C5_sessionID_lifecycle)))).
  - reflexivity.
  - right. reflexivity.
Defined.

(** C5 as stated fails: after the hello of session "abc" and a [Close]
    that completes, the state is "disconnected" and the session identifier
    is still "abc". *)
Lemma C5_sessionID_survives_Close :
  fst (Close Scenario.quiet Scenario.greeted) = Return None /\
  state Scenario.closed = DeviceStateDisconnected /\
  sessionID Scenario.closed = "abc" /\
  sessionID Scenario.closed <> "".
Proof.
  vm_compute. repeat split; discriminate.
Qed.

End CoreFacts.

(* ===================================================================== *)
(** * More about the client: what every request keeps *)
(* ===================================================================== *)

Module ClientFacts.
Import Audio Core CoreFacts.

Local Open Scope string_scope.

Ltac fields_more :=
  fields;
  cbn [Transport Websocket SampleRate Channels FrameDuration
       NewWebSocketProtocol Dial Hello State SessionID ConnectionStatus] in *.

Ltac run_more :=
  unfold StartListening, StopListening, GetStatus, capture_turn, SendAudio,
    audioSender, Connect, Close, NewProtocol, handleHelloResponse,
    handleBinaryMessage, handleReceivedAudio, handleTextMessage,
    messageHandler_turn;
  run; fields_more.

Ltac decisions_more :=
  unfold DeviceStateUnknown, DeviceStateConnecting, DeviceStateIdle,
    DeviceStateListening, DeviceStateSpeaking, DeviceStateDisconnected in *;
  repeat (case_decide; fields_more; subst;
          try (discriminate || congruence
               || solve [exfalso; intuition congruence])).

(** ** Properties kept by every method *)

Section Keeps.
Context (P : Client -> Prop).
Hypothesis P_emit : forall e, keeps P (emit e).
Hypothesis P_set_state : forall s, keeps P (set_state s).
Hypothesis P_set_sessionID : forall sid, keeps P (set_sessionID sid).
Hypothesis P_connected : keeps P (set_transport true).
Hypothesis P_closed : keeps P (set_closeChan true).
Hypothesis P_audioCtrl_call : forall k, keeps P (audioCtrl_call k).

Lemma keeps_ret {A} (a : A) : keeps P (ret a).
Proof. intros c Hc. exact Hc. Qed.

Lemma keeps_panic {A} msg : keeps P (@panic A msg).
Proof. intros c Hc. exact Hc. Qed.

Lemma keeps_get {A} (g : Client -> A) : keeps P (get g).
Proof. intros c Hc. exact Hc. Qed.

Lemma keeps_bind {A A'} (m : method A) (k : A -> method A') :
  keeps P m -> (forall a, keeps P (k a)) -> keeps P (bind m k).
Proof.
  intros Hm Hk c Hc. unfold bind.
  specialize (Hm c Hc). destruct (m c) as [[a|msg] c1]; cbn [snd] in *.
  - apply Hk, Hm.
  - exact Hm.
Qed.

(** A method built from kept steps by [bind] and by cases is kept. *)
Ltac kept :=
  repeat first
    [ apply keeps_ret
    | apply keeps_panic
    | apply keeps_get
    | apply P_emit
    | apply P_set_state
    | apply P_set_sessionID
    | apply P_connected
    | apply P_closed
    | apply P_audioCtrl_call
    | assumption
    | match goal with H : context [keeps] |- _ => apply H end
    | apply keeps_bind; [| intros ?]
    | match goal with
      | |- keeps _ (if ?b then _ else _) => destruct b
      | |- keeps _ (match ?x with _ => _ end) => destruct x
      end ].

Ltac primitives :=
  unfold GetState, logf, audioCtrl_StartSending, audioCtrl_StopSending,
    audioCtrl_StartReceiving, audioCtrl_StopReceiving,
    audioCtrl_IsSending, audioCtrl_IsReceiving.

Lemma keeps_setState s : keeps P (setState s).
Proof. unfold setState. primitives. kept. Qed.

Lemma keeps_sendJSON data send : keeps P (sendJSON data send).
Proof. unfold sendJSON. primitives. kept. Qed.

Lemma keeps_SendStartListening mode send :
  keeps P (SendStartListening mode send).
Proof.
  pose proof keeps_setState. pose proof keeps_sendJSON.
  unfold SendStartListening. primitives. kept.
Qed.

Lemma keeps_BeginAudioStream : keeps P BeginAudioStream.
Proof. unfold BeginAudioStream. primitives. kept. Qed.

Lemma keeps_EndAudioStream : keeps P EndAudioStream.
Proof. unfold EndAudioStream. primitives. kept. Qed.

Lemma keeps_handleMessage msg send : keeps P (handleMessage msg send).
Proof.
  pose proof keeps_setState. pose proof keeps_SendStartListening.
  pose proof keeps_BeginAudioStream. pose proof keeps_EndAudioStream.
  unfold handleMessage, handleHelloResponse, handleListenMessage,
    handleTTSMessage, handleSTTMessage, handleLLMMessage,
    handleAbortMessage, handleErrorMessage.
  primitives. destruct msg as [e|m]; kept.
Qed.

Lemma keeps_messageHandler_turn msg w : keeps P (messageHandler_turn msg w).
Proof.
  pose proof keeps_handleMessage.
  unfold messageHandler_turn, handleTextMessage, handleBinaryMessage,
    handleReceivedAudio.
  primitives. kept.
Qed.

Lemma keeps_messageHandler inbox : keeps P (messageHandler inbox).
Proof.
  induction inbox as [|[msg w] rest IH]; cbn [messageHandler].
  - apply keeps_ret.
  - apply keeps_bind; [apply keeps_messageHandler_turn | intros _; exact IH].
Qed.

Lemma keeps_Connect d : keeps P (Connect d).
Proof.
  pose proof keeps_setState. pose proof keeps_sendJSON.
  unfold Connect. primitives. kept.
Qed.

Lemma keeps_Close q : keeps P (Close q).
Proof.
  pose proof keeps_setState.
  unfold Close, StopAudioCapture. primitives. kept.
Qed.

Lemma keeps_StartListening mode send : keeps P (StartListening mode send).
Proof.
  pose proof keeps_setState. pose proof keeps_sendJSON.
  unfold StartListening. primitives. kept.
Qed.

Lemma keeps_StopListening send : keeps P (StopListening send).
Proof.
  pose proof keeps_setState. pose proof keeps_sendJSON.
  unfold StopListening. primitives. kept.
Qed.

Lemma keeps_serve r : keeps P (serve r).
Proof.
  pose proof keeps_Connect. pose proof keeps_Close.
  pose proof keeps_StartListening. pose proof keeps_StopListening.
  pose proof keeps_BeginAudioStream. pose proof keeps_EndAudioStream.
  pose proof keeps_messageHandler_turn.
  destruct r; cbn [serve]; kept.
Qed.

Lemma keeps_after_requests rs : forall c, P c -> P (after_requests rs c).
Proof.
  induction rs as [|r rs IH]; intros c Hc; cbn [after_requests].
  - exact Hc.
  - apply IH, keeps_serve, Hc.
Qed.

End Keeps.

(** ** The invariants of a session *)

Lemma half_duplex_kept (rs : list request) (c : Client) :
  half_duplex (audioCtrl c) -> half_duplex (audioCtrl (after_requests rs c)).
Proof.
  revert c.
  apply (keeps_after_requests (fun c => half_duplex (audioCtrl c)));
    try (intros ? c Hc; exact Hc); try (intros c Hc; exact Hc).
  intros k c Hc. unfold audioCtrl_call.
  pose proof (AudioFacts.perform_half_duplex k _ Hc) as Hk.
  destruct (perform k (audioCtrl c)). exact Hk.
Qed.

(** X1.  The half-duplex invariant holds for the client as a whole: after
    any sequence of requests served by a new client -- connecting,
    closing, starting and stopping to listen, beginning and ending the
    audio stream, inbound text, binary and control messages with any
    content, whatever the collaborators answer, panics included -- its
    controller does not have [isSending] and [isReceiving] both set. *)
Theorem client_half_duplex (cfg : Config) (rs : list request) :
  half_duplex (audioCtrl (after_requests rs (NewClient cfg))).
Proof. apply half_duplex_kept. reflexivity. Qed.

Lemma transport_kept (rs : list request) (c : Client) :
  transport c = true -> transport (after_requests rs c) = true.
Proof.
  revert c.
  apply (keeps_after_requests (fun c => transport c = true));
    try (intros ? c Hc; exact Hc); try (intros c Hc; exact Hc).
  - intros c _. reflexivity.
  - intros k c Hc. unfold audioCtrl_call.
    destruct (perform k (audioCtrl c)). exact Hc.
Qed.

(** X2.  No method resets [c.transport]: once it is set, [GetStatus]
    reports the connection status "connected" after any further sequence
    of requests, a completed [Close] included. *)
Theorem status_stays_connected (rs : list request) (c : Client) :
  transport c = true ->
  fst (GetStatus (after_requests rs c))
  = Return {| State := state (after_requests rs c);
              SessionID := sessionID (after_requests rs c);
              ConnectionStatus := "connected" |}.
Proof.
  intros Hc. unfold GetStatus, get. cbn [fst].
  rewrite (transport_kept rs c Hc). reflexivity.
Qed.

Lemma status_stays_connected_witness :
  transport Scenario.connected = true /\
  state (after_requests [AskClose Scenario.quiet] Scenario.connected)
    = DeviceStateDisconnected /\
  fst (GetStatus (after_requests [AskClose Scenario.quiet] Scenario.connected))
  = Return {| State :=
                state (after_requests [AskClose Scenario.quiet]
                         Scenario.connected);
              SessionID :=
                sessionID (after_requests [AskClose Scenario.quiet]
                             Scenario.connected);
              ConnectionStatus := "connected" |}.
Proof.
  split; [reflexivity |]. split; [reflexivity |].
  apply (status_stays_connected [AskClose Scenario.quiet] Scenario.connected).
  reflexivity.
Defined.

Lemma closeChan_kept (rs : list request) (c : Client) :
  closeChan c = true -> closeChan (after_requests rs c) = true.
Proof.
  revert c.
  apply (keeps_after_requests (fun c => closeChan c = true));
    try (intros ? c Hc; exact Hc); try (intros c Hc; exact Hc).
  - intros c _. reflexivity.
  - intros k c Hc. unfold audioCtrl_call.
    destruct (perform k (audioCtrl c)). exact Hc.
Qed.

Lemma Close_closes (q : closing) (c : Client) :
  closeChan c = false -> closeChan (snd (Close q c)) = true.
Proof.
  intros Hopen. destruct c as [cfg st sid tr cl ctrl t]. fields. subst cl.
  destruct q as [taken closeErr]. unfold Close. run_more.
  destruct taken, tr, closeErr; fields; decisions; reflexivity.
Qed.

Lemma Close_closed_panics (q : closing) (c : Client) :
  closeChan c = true -> fst (Close q c) = Panic "close of closed channel".
Proof.
  intros Hclosed. destruct c as [cfg st sid tr cl ctrl t]. fields. subst cl.
  reflexivity.
Qed.

(** X3.  [Close] can be called once: after a [Close] on a client whose
    [closeChan] was open -- whether that [Close] returned [nil] or the
    transport's error -- every later [Close] panics on
    [close(c.closeChan)], whatever requests were served in between. *)
Theorem Close_again_panics (q q' : closing) (rs : list request) (c : Client) :
  closeChan c = false ->
  fst (Close q' (after_requests rs (snd (Close q c))))
  = Panic "close of closed channel".
Proof.
  intros Hopen. apply Close_closed_panics, closeChan_kept, Close_closes, Hopen.
Qed.

Lemma Close_again_panics_witness :
  closeChan Scenario.greeted = false /\
  fst (Close Scenario.quiet
         (after_requests [AskConnect Scenario.reachable]
            (snd (Close Scenario.quiet Scenario.greeted))))
  = Panic "close of closed channel".
Proof.
  split; [reflexivity |].
  apply (Close_again_panics Scenario.quiet Scenario.quiet
           [AskConnect Scenario.reachable] Scenario.greeted).
  reflexivity.
Defined.

(** X4.  A [Close] whose [transport.Close] fails returns that error and
    stops there: the device state is left as it was (not "disconnected")
    while [closeChan] is already closed. *)
Theorem Close_transport_error (q : closing) (c : Client) (e : string) :
  closeChan c = false ->
  transport c = true ->
  TransportClose q = Some e ->
  exists c' : Client,
    Close q c = (Return (Some e), c') /\
    state c' = state c /\
    closeChan c' = true /\
    audioCtrl c' = audioCtrl c.
Proof.
  intros Hopen Hconn Herr.
  destruct c as [cfg st sid tr cl ctrl t]. fields. subst cl tr.
  destruct q as [taken closeErr]. fields. subst closeErr.
  unfold Close. run_more.
  destruct taken; eexists; (split; [reflexivity |]); repeat split.
Qed.

Lemma Close_transport_error_witness :
  exists c' : Client,
    Close {| StopTaken := false; TransportClose := Some "broken pipe" |}
      Scenario.greeted
    = (Return (Some "broken pipe"), c') /\
    state c' = state Scenario.greeted /\
    closeChan c' = true /\
    audioCtrl c' = audioCtrl Scenario.greeted.
Proof.
  apply (Close_transport_error
           {| StopTaken := false; TransportClose := Some "broken pipe" |}
           Scenario.greeted "broken pipe"); reflexivity.
Defined.

(** ** Connecting *)

(** X5.  [Connect] on a client whose configuration has its [Websocket]
    part returns without panic; it returns [nil] exactly when the
    configured transport is "websocket" and the constructor, the dial and
    the send of the hello all succeed, and then the state is "idle";
    otherwise the state is "unknown".  [c.transport] is set as soon as
    the dial has succeeded, also when the hello then fails.  The session
    identifier and the controller are not touched. *)
Theorem Connect_outcome (d : dialing) (c : Client) :
  Websocket (config c) = true ->
  exists (r : error) (c' : Client),
    Connect d c = (Return r, c') /\
    (r = None <->
       Transport (config c) = "websocket" /\ NewWebSocketProtocol d = None /\
       Dial d = None /\ Hello d = None) /\
    state c' = (if r is None then DeviceStateIdle else DeviceStateUnknown) /\
    (Transport (config c) = "websocket" -> NewWebSocketProtocol d = None ->
     Dial d = None -> transport c' = true) /\
    sessionID c' = sessionID c /\
    audioCtrl c' = audioCtrl c.
Proof.
  intros Hws.
  destruct c as [[tp ws sr ch fd] st sid tr cl ctrl t].
  fields_more. subst ws.
  destruct d as [newErr dialErr helloErr].
  unfold Connect. run_more.
  destruct (decide (tp = "websocket")) as [->|Hother];
    [destruct newErr as [e1|]; [| destruct dialErr as [e2|];
       [| destruct helloErr as [e3|]]] |];
    decisions_more;
    eexists _, _; (split; [reflexivity |]);
    (split; [split; [intros; discriminate || (repeat split; reflexivity)
                    | intros (? & ? & ? & ?); congruence] |]);
    repeat split; reflexivity || (intros; congruence).
Qed.

Lemma Connect_outcome_witness :
  exists (r : error) (c' : Client),
    Connect {| NewWebSocketProtocol := None; Dial := None;
               Hello := Some "write: broken pipe" |}
      (NewClient Scenario.cfg) = (Return r, c') /\
    r <> None /\
    state c' = DeviceStateUnknown /\
    transport c' = true.
Proof.
  destruct (Connect_outcome
              {| NewWebSocketProtocol := None; Dial := None;
                 Hello := Some "write: broken pipe" |}
              (NewClient Scenario.cfg) eq_refl)
    as (r & c' & Hrun & Hnil & Hstate & Htransport & _).
  exists r, c'. split; [exact Hrun |].
  assert (r <> None) as Hr.
  { intros Hr. apply Hnil in Hr. destruct Hr as (_ & _ & _ & Hhello).
    discriminate Hhello. }
  split; [exact Hr |]. split.
  - rewrite Hstate. destruct r; [reflexivity | congruence].
  - apply Htransport; reflexivity.
Defined.

(** X6.  [Connect] on a client whose configuration lacks its [Websocket]
    part panics on the nil pointer as it logs the URL, before
    [NewProtocol] can report the missing configuration: the state is left
    at "connecting". *)
Theorem Connect_without_websocket_config (d : dialing) (c : Client) :
  Websocket (config c) = false ->
  exists c' : Client,
    Connect d c
    = (Panic "runtime error: invalid memory address or nil pointer dereference",
       c') /\
    state c' = DeviceStateConnecting /\
    transport c' = transport c.
Proof.
  intros Hws.
  destruct c as [[tp ws sr ch fd] st sid tr cl ctrl t].
  fields_more. subst ws.
  unfold Connect. run_more.
  decisions_more; eexists; (split; [reflexivity |]); split; reflexivity.
Qed.

Lemma Connect_without_websocket_config_witness :
  exists c' : Client,
    Connect Scenario.reachable
      (NewClient {| Transport := "websocket"; Websocket := false;
                    SampleRate := 16000; Channels := 1;
                    FrameDuration := 60 |})
    = (Panic "runtime error: invalid memory address or nil pointer dereference",
       c') /\
    state c' = DeviceStateConnecting /\
    transport c' = false.
Proof.
  apply (Connect_without_websocket_config Scenario.reachable
           (NewClient {| Transport := "websocket"; Websocket := false;
                         SampleRate := 16000; Channels := 1;
                         FrameDuration := 60 |})).
  reflexivity.
Defined.

(** ** The handlers *)

(** X7.  The hello response: on a connected client in state "idle" or
    "connecting" whose controller is not receiving, with a transport that
    accepts the send, handling a decoded message of type "hello" with a
    string [session_id] returns [nil]; it records the session identifier,
    sends the listen-start message with that identifier and mode "auto",
    enters "listening", sets [isSending] and launches the capture task. *)
Theorem hello_starts_listening (c : Client) (m : object) (sid : string) :
  field_string m "type" = Some "hello" ->
  field_string m "session_id" = Some sid ->
  state c = DeviceStateIdle \/ state c = DeviceStateConnecting ->
  transport c = true ->
  isReceiving (audioCtrl c) = false ->
  exists (c' : Client) (added : list event),
    handleMessage (Decoded m) None c = (Return None, c') /\
    sessionID c' = sid /\
    state c' = DeviceStateListening /\
    isSending (audioCtrl c') = true /\
    isReceiving (audioCtrl c') = false /\
    trace c' = (trace c ++ added)%list /\
    In (SentJSON (listenStart sid ListenModeAuto)) added /\
    In (Go "startAudioCapture") added.
Proof.
  intros Htype Hsid Hstate Hconn Hrecv.
  destruct c as [cfg st sid0 tr cl [sending receiving] t].
  fields. subst tr receiving.
  dispatch Htype.
  unfold handleHelloResponse, field_string in *.
  destruct (m !! "session_id") as [[| | |s| |]|]; try discriminate.
  injection Hsid as ->.
  run_more.
  destruct Hstate as [->| ->]; decisions_more;
    eexists _, _; (split; [reflexivity |]); fields;
    do 4 (split; [reflexivity |]);
    rewrite <- !app_assoc; (split; [reflexivity |]);
    cbn [app In]; split; auto 12.
Qed.

Lemma hello_starts_listening_witness :
  exists (c' : Client) (added : list event),
    handleMessage (Decoded Scenario.hello_abc) None Scenario.connected
      = (Return None, c') /\
    sessionID c' = "abc" /\
    state c' = DeviceStateListening /\
    isSending (audioCtrl c') = true /\
    isReceiving (audioCtrl c') = false /\
    trace c' = (trace Scenario.connected ++ added)%list /\
    In (SentJSON (listenStart "abc" ListenModeAuto)) added /\
    In (Go "startAudioCapture") added.
Proof.
  apply (hello_starts_listening Scenario.connected Scenario.hello_abc "abc");
    try reflexivity.
  left. reflexivity.
Defined.

(** X8.  The end of speech: in any client state, handling a decoded
    message of type "tts" with state "stop" returns [nil] and leaves the
    controller sending and not receiving.  The state afterwards is
    "listening" when the client is connected and the transport accepts
    the listen-start message, and "idle" otherwise -- with [isSending]
    set all the same. *)
Theorem tts_stop_resumes_sending (c : Client) (m : object) (send : error) :
  field_string m "type" = Some "tts" ->
  field_string m "state" = Some "stop" ->
  exists c' : Client,
    handleMessage (Decoded m) send c = (Return None, c') /\
    isReceiving (audioCtrl c') = false /\
    isSending (audioCtrl c') = true /\
    state c' = (if transport c
                then if send is None then DeviceStateListening
                     else DeviceStateIdle
                else DeviceStateIdle) /\
    sessionID c' = sessionID c.
Proof.
  intros Htype Hstate.
  destruct c as [cfg st sid tr cl [sending receiving] t].
  dispatch Htype.
  unfold handleTTSMessage. rewrite Hstate.
  run_more.
  destruct tr, send as [e|]; decisions_more;
    eexists; (split; [reflexivity |]); repeat split; reflexivity.
Qed.

Lemma tts_stop_resumes_sending_witness :
  exists c' : Client,
    handleMessage
      (Decoded (<["type" := JString "tts"]> (<["state" := JString "stop"]> ∅)))
      (Some "write: broken pipe") Scenario.greeted = (Return None, c') /\
    isReceiving (audioCtrl c') = false /\
    isSending (audioCtrl c') = true /\
    state c' = (if transport Scenario.greeted
                then if Some "write: broken pipe" is None
                     then DeviceStateListening
                     else DeviceStateIdle
                else DeviceStateIdle) /\
    sessionID c' = sessionID Scenario.greeted.
Proof.
  apply (tts_stop_resumes_sending Scenario.greeted
           (<["type" := JString "tts"]> (<["state" := JString "stop"]> ∅))
           (Some "write: broken pipe")); vm_compute; reflexivity.
Defined.

(** X9.  An unknown type is ignored: a decoded message whose [type] is a
    string other than the seven the dispatcher knows makes
    [handleMessage] return [nil]; the client is as before but for two
    records in the log. *)
Theorem unknown_type_is_ignored (c : Client) (m : object) (ty : string)
    (send : error) :
  field_string m "type" = Some ty ->
  ~ In ty ["hello"; "listen"; "tts"; "stt"; "llm"; "abort"; "error"] ->
  handleMessage (Decoded m) send c
  = (Return None,
     snd (logf LevelWarn "Unknown message type received"
            (snd (logf LevelInfo "Handling message" c)))).
Proof.
  intros Htype Hother. unfold handleMessage. rewrite Htype.
  repeat (case_decide;
          [exfalso; apply Hother; subst; cbn [In]; auto 10 |]).
  reflexivity.
Qed.

Lemma unknown_type_is_ignored_witness :
  handleMessage (Decoded (<["type" := JString "iot"]> ∅)) None
    Scenario.greeted
  = (Return None,
     snd (logf LevelWarn "Unknown message type received"
            (snd (logf LevelInfo "Handling message" Scenario.greeted)))).
Proof.
  apply (unknown_type_is_ignored Scenario.greeted
           (<["type" := JString "iot"]> ∅) "iot" None).
  - reflexivity.
  - cbn [In]. intros H.
    repeat (destruct H as [H|H]; [discriminate H |]). exact H.
Defined.

(** X10.  An abort always ends in "idle": in any client state, a decoded
    message of type "abort" makes [handleMessage] return [nil] with the
    state "idle"; the controller is not called, so a controller that was
    receiving (or sending) still is. *)
Theorem abort_goes_idle (c : Client) (m : object) (send : error) :
  field_string m "type" = Some "abort" ->
  exists c' : Client,
    handleMessage (Decoded m) send c = (Return None, c') /\
    state c' = DeviceStateIdle /\
    audioCtrl c' = audioCtrl c /\
    sessionID c' = sessionID c.
Proof.
  intros Htype.
  destruct c as [cfg st sid tr cl ctrl t].
  dispatch Htype. run_more.
  decisions_more; eexists; (split; [reflexivity |]); repeat split.
Qed.

Lemma abort_goes_idle_witness :
  exists c' : Client,
    handleMessage (Decoded (<["type" := JString "abort"]> ∅)) None
      Scenario.greeted = (Return None, c') /\
    state c' = DeviceStateIdle /\
    audioCtrl c' = audioCtrl Scenario.greeted /\
    sessionID c' = sessionID Scenario.greeted.
Proof.
  apply (abort_goes_idle Scenario.greeted
           (<["type" := JString "abort"]> ∅) None).
  reflexivity.
Defined.

(** ** Listening on request *)

(** X11.  [StartListening] returns [nil] exactly when the state is
    "idle", the client is connected and the transport accepts the
    listen-start message; the state is then "listening" -- also when the
    controller refuses to start sending because it is receiving, which
    is only logged.  In every other case the state, like the controller,
    is left as it was. *)
Theorem StartListening_outcome (mode : ListenMode) (send : error) (c : Client) :
  exists (r : error) (c' : Client),
    StartListening mode send c = (Return r, c') /\
    (r = None <->
       state c = DeviceStateIdle /\ transport c = true /\ send = None) /\
    state c' = (if r is None then DeviceStateListening else state c) /\
    audioCtrl c'
      = (if r is None then snd (StartSending (audioCtrl c)) else audioCtrl c) /\
    sessionID c' = sessionID c.
Proof.
  destruct c as [cfg st sid tr cl [sending receiving] t].
  run_more.
  destruct (decide (st = "idle")) as [->|Hst], tr, send as [e|], receiving;
    decisions_more;
    eexists _, _; (split; [reflexivity |]); fields_more;
    (split; [split; [intros; discriminate || (repeat split; reflexivity)
                    | intros (? & ? & ?); congruence] |]);
    repeat split; reflexivity.
Qed.

(** X12.  [StopListening] returns [nil] exactly when the state is
    "listening", the client is connected and the transport accepts the
    listen-stop message; the state is then "idle".  It never calls the
    controller: [isSending] stays as it was, also on success. *)
Theorem StopListening_outcome (send : error) (c : Client) :
  exists (r : error) (c' : Client),
    StopListening send c = (Return r, c') /\
    (r = None <->
       state c = DeviceStateListening /\ transport c = true /\ send = None) /\
    state c' = (if r is None then DeviceStateIdle else state c) /\
    audioCtrl c' = audioCtrl c /\
    sessionID c' = sessionID c.
Proof.
  destruct c as [cfg st sid tr cl ctrl t].
  run_more.
  destruct (decide (st = "listening")) as [->|Hst], tr, send as [e|];
    decisions_more;
    eexists _, _; (split; [reflexivity |]); fields_more;
    (split; [split; [intros; discriminate || (repeat split; reflexivity)
                    | intros (? & ? & ?); congruence] |]);
    repeat split; reflexivity.
Qed.

(** ** The inbound pump on empty and on binary messages *)

Lemma empty_text_turn (w : replies) (c : Client) :
  messageHandler_turn (mkMessage "" MsgText) w c
  = (Return tt, snd (logf LevelDebug "Empty message received" c)).
Proof. reflexivity. Qed.

(** X13.  Text messages of length zero -- which is also what a receive
    from the transport's closed channel yields, turn after turn -- are
    no-ops for the pump: after any number of them it has returned
    without error or panic, and the client is as before but for one
    debug record per message. *)
Theorem empty_text_messages_are_noops (ws : list replies) (c : Client) :
  messageHandler (map (fun w => (mkMessage "" MsgText, w)) ws) c
  = (Return tt,
     {| config := config c; state := state c; sessionID := sessionID c;
        transport := transport c; closeChan := closeChan c;
        audioCtrl := audioCtrl c;
        trace := (trace c
                  ++ map (fun _ => Logged LevelDebug "Empty message received")
                       ws)%list |}).
Proof.
  revert c. induction ws as [|w ws IH]; intros c; cbn [map messageHandler].
  - destruct c. unfold ret. cbn [trace]. rewrite app_nil_r. reflexivity.
  - unfold bind at 1. rewrite empty_text_turn. rewrite IH.
    unfold logf, emit. fields. rewrite <- app_assoc. reflexivity.
Qed.

(** X14.  A binary message is handled without error exactly when the
    controller is not receiving (the frame is then dropped, and neither
    the decoder nor the player decides anything) or both the decoder and
    the player succeed.  In no case does it change the state, the session
    identifier or the flags of the controller. *)
Theorem binary_message_outcome (w : replies) (c : Client) :
  exists (r : error) (c' : Client),
    handleBinaryMessage w c = (Return r, c') /\
    (r = None <->
       isReceiving (audioCtrl c) = false \/
       (Decode w = None /\ Play w = None)) /\
    state c' = state c /\
    sessionID c' = sessionID c /\
    audioCtrl c' = audioCtrl c.
Proof.
  destruct c as [cfg st sid tr cl [sending receiving] t].
  destruct w as [um snd_ [de|] [pe|]]; run_more; destruct receiving;
    eexists _, _; (split; [reflexivity |]); fields_more;
    (split; [split; [intros; discriminate || auto
                    | intros [?|[? ?]]; congruence] |]);
    repeat split; reflexivity.
Qed.

(** ** The audio pumps *)

(** X15.  [SendAudio] puts the frame at the back of the send queue
    exactly when the controller is sending and the queue holds fewer than
    100 frames; otherwise it returns an error and the queue is as it
    was.  So a queue of at most 100 frames stays one, and a full queue
    drops the new frame at once. *)
Theorem SendAudio_outcome (data : string) (queue : list string) (c : Client) :
  exists (r : error) (queue' : list string) (c' : Client),
    SendAudio data queue c = (Return (r, queue'), c') /\
    (r = None <->
       isSending (audioCtrl c) = true /\ (length queue < 100)%nat) /\
    queue' = (if r is None then queue ++ [data] else queue)%list /\
    ((length queue <= 100)%nat -> (length queue' <= 100)%nat) /\
    state c' = state c /\
    audioCtrl c' = audioCtrl c.
Proof.
  destruct c as [cfg st sid tr cl [sending receiving] t].
  run_more. unfold audioSendCap.
  destruct sending; [destruct (decide (length queue < 100)%nat) |];
    eexists _, _, _; (split; [reflexivity |]); fields_more;
    (split; [split; [intros; discriminate || auto
                    | intros [? ?]; reflexivity || discriminate || contradiction] |]);
    (split; [reflexivity |]);
    (split; [rewrite ?length_app; cbn [length]; lia |]);
    split; reflexivity.
Qed.

(** X16.  A captured chunk reaches the send queue only in state
    "listening" with the controller sending and room in the queue; in
    every other case it is dropped and the queue is as it was.  The turn
    changes neither the state nor the flags of the controller. *)
Theorem capture_turn_outcome (data : string) (queue : list string)
    (c : Client) :
  exists (queue' : list string) (c' : Client),
    capture_turn data queue c = (Return queue', c') /\
    (state c = DeviceStateListening /\ isSending (audioCtrl c) = true /\
     (length queue < 100)%nat -> queue' = (queue ++ [data])%list) /\
    (~ (state c = DeviceStateListening /\ isSending (audioCtrl c) = true /\
        (length queue < 100)%nat) -> queue' = queue) /\
    state c' = state c /\
    audioCtrl c' = audioCtrl c.
Proof.
  destruct c as [cfg st sid tr cl [sending receiving] t].
  run_more. unfold audioSendCap.
  destruct (decide (st = "listening")) as [->|Hst];
    [destruct sending; [destruct (decide (length queue < 100)%nat) |] |];
    decisions_more;
    eexists _, _; (split; [reflexivity |]); fields_more;
    (split; [intros (? & ? & ?);
             reflexivity || discriminate || contradiction || congruence |]);
    (split; [intros Hnot; try reflexivity; exfalso; apply Hnot;
             repeat split; assumption || reflexivity |]);
    split; reflexivity.
Qed.

Lemma capture_turn_outcome_witness :
  exists (queue' : list string) (c' : Client),
    capture_turn "frame" ["older"] Scenario.greeted = (Return queue', c') /\
    queue' = ["older"; "frame"].
Proof.
  destruct (capture_turn_outcome "frame" ["older"] Scenario.greeted)
    as (queue' & c' & Hrun & Hsent & _).
  exists queue', c'. split; [exact Hrun |].
  apply Hsent. split; [reflexivity |]. split; [reflexivity |].
  cbn. lia.
Defined.

Lemma audioSender_loop_idle (frames : list (string * error)) (c : Client) :
  isSending (audioCtrl c) = false ->
  exists c' : Client,
    audioSender_loop frames c = (Return [], c') /\
    state c' = state c /\ audioCtrl c' = audioCtrl c.
Proof.
  intros Hidle. revert c Hidle.
  induction frames as [|[data send] rest IH]; intros c Hidle;
    cbn [audioSender_loop].
  - eexists. split; [reflexivity |]. split; reflexivity.
  - destruct c as [cfg st sid tr cl [sending receiving] t].
    fields. subst sending. run.
    edestruct IH as (c' & Hrun & Hst & Hctrl); [| rewrite Hrun].
    + reflexivity.
    + eexists. split; [reflexivity |]. split; assumption.
Qed.

Lemma audioSender_loop_sending (good : list string)
    (tail : list (string * error)) (c : Client) :
  isSending (audioCtrl c) = true ->
  exists c' : Client,
    audioSender_loop (map (fun d => (d, None)) good ++ tail) c
    = (let (r, c'') := audioSender_loop tail c' in
       (match r with
        | Return sent => Return (good ++ sent)%list
        | Panic msg => Panic msg
        end, c'')) /\
    state c' = state c /\ audioCtrl c' = audioCtrl c.
Proof.
  intros Hsending. revert c Hsending.
  induction good as [|d good IH]; intros c Hsending; cbn [map app].
  - exists c. split; [| split; reflexivity].
    destruct (audioSender_loop tail c) as [[sent|msg] c'']; reflexivity.
  - cbn [audioSender_loop].
    destruct c as [cfg st sid tr cl [sending receiving] t].
    fields. subst sending. run.
    edestruct IH as (c' & Hrun & Hst & Hctrl); [| rewrite Hrun].
    + reflexivity.
    + exists c'. split; [| split; assumption].
      destruct (audioSender_loop tail c') as [[sent|msg] c'']; reflexivity.
Qed.

(** X17.  [audioSender] forwards frames only while the controller is
    sending, in the order of the queue, and gives up at the first send
    that fails: with the controller not sending, no frame is handed to
    the transport; with it sending, the frames up to and including the
    first one whose send fails are handed over, and none of those behind
    it, whatever their sends would return. *)
Theorem audioSender_outcome (good : list string) (bad : string) (e : string)
    (behind : list (string * error)) (c : Client) :
  (isSending (audioCtrl c) = false ->
   fst (audioSender (map (fun d => (d, None)) good ++ (bad, Some e) :: behind) c)
   = Return []) /\
  (isSending (audioCtrl c) = true ->
   fst (audioSender (map (fun d => (d, None)) good) c) = Return good /\
   fst (audioSender (map (fun d => (d, None)) good ++ (bad, Some e) :: behind) c)
   = Return (good ++ [bad])%list).
Proof.
  split.
  - intros Hidle. unfold audioSender, logf.
    unfold bind at 1. cbn [emit].
    edestruct (audioSender_loop_idle
                 (map (fun d => (d, None)) good ++ (bad, Some e) :: behind))
      as (c' & Hrun & _); [| unfold bind at 1; rewrite Hrun; reflexivity].
    exact Hidle.
  - intros Hsending. split.
    + unfold audioSender, logf. unfold bind at 1. cbn [emit].
      edestruct (audioSender_loop_sending good []) as (c' & Hrun & _);
        [| rewrite app_nil_r in Hrun; unfold bind at 1; rewrite Hrun;
           cbn [audioSender_loop]; unfold ret; rewrite app_nil_r;
           reflexivity].
      exact Hsending.
    + unfold audioSender, logf. unfold bind at 1. cbn [emit].
      edestruct (audioSender_loop_sending good ((bad, Some e) :: behind))
        as (c' & Hrun & Hst & Hctrl);
        [| unfold bind at 1; rewrite Hrun].
      * exact Hsending.
      * assert (isSending (audioCtrl c') = true) as Hstill
          by (rewrite Hctrl; exact Hsending).
        clear Hrun Hst Hctrl. cbn [audioSender_loop].
        destruct c' as [cfg st sid tr cl [sending receiving] t].
        fields. subst sending. reflexivity.
Qed.

Lemma audioSender_outcome_witness :
  fst (audioSender [("a", None); ("b", None)] Scenario.greeted)
    = Return ["a"; "b"] /\
  fst (audioSender [("a", None); ("b", Some "EOF"); ("c", None)]
         Scenario.greeted)
    = Return ["a"; "b"] /\
  fst (audioSender [("a", None); ("b", Some "EOF"); ("c", None)]
         Scenario.connected)
    = Return [].
Proof.
  split; [| split].
  - apply (proj2 (audioSender_outcome ["a"; "b"] "x" "y" [] Scenario.greeted)).
    reflexivity.
  - apply (proj2 (audioSender_outcome ["a"] "b" "EOF" [("c", None)]
                    Scenario.greeted)).
    reflexivity.
  - apply (proj1 (audioSender_outcome ["a"] "b" "EOF" [("c", None)]
                    Scenario.connected)).
    reflexivity.
Defined.

End ClientFacts.

(* ===================================================================== *)
(** * More about the controller and the reconnection policy *)
(* ===================================================================== *)

Module PolicyFacts.
Import Audio Utils.

Lemma history_last (ks : list call) : forall c,
  exists c', last (history ks c) = Some c'.
Proof.
  induction ks as [|k ks IH]; intros c; cbn [history].
  - exists c. reflexivity.
  - destruct (IH (snd (perform k c))) as [c' Hc'].
    exists c'. rewrite last_cons, Hc'. reflexivity.
Qed.

(** X18.  The states the controller can be in are exactly the three
    half-duplex ones: a state is the last of some history of calls from
    [NewController] if and only if it does not have both flags set. *)
Theorem controller_reachable_states (c : controller) :
  half_duplex c <->
  exists ks : list call, last (history ks NewController) = Some c.
Proof.
  split.
  - destruct c as [[|] [|]]; unfold half_duplex; cbn; intros Hc.
    + discriminate Hc.
    + exists [CallStartSending]. reflexivity.
    + exists [CallStartReceiving]. reflexivity.
    + exists []. reflexivity.
  - intros [ks Hlast].
    pose proof (AudioFacts.history_half_duplex ks NewController
                  AudioFacts.half_duplex_new) as Hall.
    rewrite Forall_forall in Hall. apply Hall.
    rewrite last_Some in Hlast.
    destruct Hlast as [l' ->]. apply elem_of_app. right.
    apply list_elem_of_here.
Qed.

(** X19.  Only [StopSending] ends sending: from a state with [isSending]
    set, along any sequence of calls that has no [StopSending] in it,
    [isSending] stays set and [StartReceiving] is refused at every
    point. *)
Theorem sending_lasts_until_stopped (ks : list call) (c : controller) :
  isSending c = true ->
  ~ In CallStopSending ks ->
  Forall (fun c' => isSending c' = true /\ fst (StartReceiving c') = false)
    (history ks c).
Proof.
  revert c. induction ks as [|k ks IH]; intros c Hc Hks; cbn [history].
  - constructor; [| constructor].
    split; [exact Hc |]. unfold StartReceiving. rewrite Hc. reflexivity.
  - constructor.
    + split; [exact Hc |]. unfold StartReceiving. rewrite Hc. reflexivity.
    + apply IH.
      * destruct c as [s r]; cbn in Hc; subst s.
        destruct k; try reflexivity.
        -- unfold perform, StartSending; cbn. destruct r; reflexivity.
        -- exfalso. apply Hks. left. reflexivity.
      * intros Hin. apply Hks. right. exact Hin.
Qed.

Lemma sending_lasts_until_stopped_witness :
  Forall (fun c' => isSending c' = true /\ fst (StartReceiving c') = false)
    (history [CallStartReceiving; CallStopReceiving; CallStartSending;
              CallStartReceiving]
       {| isSending := true; isReceiving := false |}).
Proof.
  apply (sending_lasts_until_stopped
           [CallStartReceiving; CallStopReceiving; CallStartSending;
            CallStartReceiving]
           {| isSending := true; isReceiving := false |}).
  - reflexivity.
  - cbn [In]. intros H.
    repeat (destruct H as [H|H]; [discriminate H |]). exact H.
Defined.

Lemma delays_lookup (n : nat) : forall (j : nat) (e : ExponentialBackoff)
    (k : nat),
  currentDelay e = Z.min (2 ^ Z.of_nat j) 30 * Second ->
  maxDelay e = 30 * Second ->
  (k < n)%nat ->
  delays n e !! k = Some (Z.min (2 ^ Z.of_nat (j + k)) 30 * Second).
Proof.
  induction n as [|n IH]; intros j e k Hcur Hmax Hk; [lia |].
  cbn [delays]. unfold NextDelay.
  assert (1 <= 2 ^ Z.of_nat j) as Hpow by (apply Z.pow_le_mono_r with (b := 0); lia).
  destruct k as [|k].
  - rewrite Nat.add_0_r, <- Hcur. reflexivity.
  - rewrite lookup_cons.
    replace (j + S k)%nat with (S j + k)%nat by lia.
    apply IH; cbn [currentDelay maxDelay]; [| exact Hmax | lia].
    rewrite Hcur, Hmax.
    rewrite Nat2Z.inj_succ, Z.pow_succ_r by lia.
    unfold Second in *.
    rewrite UtilsFacts.wrap64_small by lia.
    destruct (Z.gtb_spec (Z.min (2 ^ Z.of_nat j) 30 * 1000000000 * 2)
                (30 * 1000000000)); lia.
Qed.

(** X20.  The delays of a fresh policy in closed form: the call number
    [k] of [NextDelay] (counting from 0) returns [min (2^k, 30)] seconds,
    that is 1s, 2s, 4s, 8s, 16s, then 30s for ever. *)
Theorem delays_closed_form (n k : nat) :
  (k < n)%nat ->
  delays n NewExponentialBackoff !! k
  = Some (Z.min (2 ^ Z.of_nat k) 30 * Second).
Proof.
  intros Hk.
  apply (delays_lookup n 0 NewExponentialBackoff k); [| | exact Hk].
  - reflexivity.
  - reflexivity.
Qed.

Lemma delays_closed_form_witness :
  delays 9 NewExponentialBackoff !! 7%nat
  = Some (Z.min (2 ^ Z.of_nat 7) 30 * Second).
Proof.
  apply (delays_closed_form 9 7). lia.
Defined.

End PolicyFacts.

(* ===================================================================== *)
(** * Properties of the recorder *)
(* ===================================================================== *)

Module RecorderFacts.
Import Recorder.

Local Open Scope string_scope.

Lemma int16_of_byte_range (x : byte) : (0 <= int16_of_byte x < 256)%Z.
Proof.
  unfold int16_of_byte. pose proof (Byte.to_N_bounded x). lia.
Qed.

Lemma land_low_high (l h : Z) : (0 <= l < 256)%Z -> Z.land l (Z.shiftl h 8) = 0%Z.
Proof.
  intros Hl. apply Z.bits_inj'. intros n Hn.
  rewrite Z.land_spec, Z.bits_0.
  destruct (Z.lt_ge_cases n 8) as [Hlow|Hhigh].
  - rewrite (Z.shiftl_spec_low h 8 n Hlow). apply andb_false_r.
  - assert (Z.testbit l n = false) as ->; [| reflexivity].
    destruct (Z.eq_dec l 0) as [->|Hnz]; [apply Z.bits_0 |].
    apply Z.bits_above_log2; [lia |].
    apply Z.lt_le_trans with (m := 8%Z); [| exact Hhigh].
    apply Z.log2_lt_pow2; [lia |]. change (2 ^ 8)%Z with 256%Z. lia.
Qed.

Lemma lor_low_high (l h : Z) :
  (0 <= l < 256)%Z -> Z.lor l (Z.shiftl h 8) = (l + 256 * h)%Z.
Proof.
  intros Hl. pose proof (land_low_high l h Hl) as Hland.
  rewrite <- (Z.lxor_lor _ _ Hland), <- (Z.add_nocarry_lxor _ _ Hland).
  rewrite Z.shiftl_mul_pow2 by lia. change (2 ^ 8)%Z with 256%Z. lia.
Qed.

Lemma wrap16_shift (h : Z) :
  (0 <= h < 256)%Z ->
  wrap16 (Z.shiftl h 8) = Z.shiftl (if (h <? 128)%Z then h else h - 256) 8.
Proof.
  intros Hh. rewrite !Z.shiftl_mul_pow2 by lia. change (2 ^ 8)%Z with 256%Z.
  unfold wrap16. change (2 ^ 15)%Z with 32768%Z. change (2 ^ 16)%Z with 65536%Z.
  destruct (Z.ltb_spec h 128).
  - rewrite Z.mod_small by lia. lia.
  - replace (h * 256 + 32768)%Z with ((h * 256 - 32768) + 1 * 65536)%Z by lia.
    rewrite Z.mod_add by lia. rewrite Z.mod_small by lia. lia.
Qed.

(** The sample made of two bytes is the 16-bit two's-complement number
    they spell, low byte first. *)
Lemma sample_value (lo hi : byte) :
  Z.lor (int16_of_byte lo) (wrap16 (Z.shiftl (int16_of_byte hi) 8))
  = wrap16 (int16_of_byte lo + 256 * int16_of_byte hi).
Proof.
  pose proof (int16_of_byte_range lo) as Hlo.
  pose proof (int16_of_byte_range hi) as Hhi.
  rewrite wrap16_shift by exact Hhi.
  rewrite lor_low_high by exact Hlo.
  unfold wrap16. change (2 ^ 15)%Z with 32768%Z. change (2 ^ 16)%Z with 65536%Z.
  destruct (Z.ltb_spec (int16_of_byte hi) 128).
  - rewrite Z.mod_small by lia. lia.
  - replace (int16_of_byte lo + 256 * int16_of_byte hi + 32768)%Z
      with ((int16_of_byte lo + 256 * int16_of_byte hi - 32768) + 1 * 65536)%Z
      by lia.
    rewrite Z.mod_add by lia. rewrite Z.mod_small by lia. lia.
Qed.

Lemma wrap16_range (z : Z) : (- 32768 <= wrap16 z < 32768)%Z.
Proof.
  unfold wrap16. change (2 ^ 15)%Z with 32768%Z. change (2 ^ 16)%Z with 65536%Z.
  pose proof (Z.mod_pos_bound (z + 32768) 65536). lia.
Qed.

Lemma even_part_length (b : list byte) :
  (length (even_part b) = 2 * (length b / 2))%nat.
Proof.
  unfold even_part.
  pose proof (Nat.div_mod_eq (length b) 2) as Hdm.
  pose proof (Nat.mod_upper_bound (length b) 2) as Hlt.
  case_decide.
  - lia.
  - rewrite length_take. lia.
Qed.

Lemma even_part_lookup (b : list byte) (j : nat) :
  (j < 2 * (length b / 2))%nat -> even_part b !! j = b !! j.
Proof.
  intros Hj. unfold even_part.
  pose proof (Nat.div_mod_eq (length b) 2) as Hdm.
  pose proof (Nat.mod_upper_bound (length b) 2) as Hlt.
  case_decide; [reflexivity |].
  apply lookup_take_lt. lia.
Qed.

Lemma bytesToInt16_runs (b : list byte) :
  exists pcm : list Z,
    bytesToInt16 b = Some pcm /\
    length pcm = (length b / 2)%nat /\
    forall i : nat, (i < length b / 2)%nat ->
      exists lo hi : byte,
        b !! (i * 2)%nat = Some lo /\ b !! (i * 2 + 1)%nat = Some hi /\
        pcm !! i
        = Some (wrap16 (int16_of_byte lo + 256 * int16_of_byte hi)).
Proof.
  pose proof (even_part_length b) as Hlen.
  assert (length (even_part b) / 2 = length b / 2)%nat as Hhalf.
  { rewrite Hlen, Nat.mul_comm. apply Nat.div_mul. discriminate. }
  assert (forall i, (i < length b / 2)%nat ->
            exists lo hi : byte,
              b !! (i * 2)%nat = Some lo /\ b !! (i * 2 + 1)%nat = Some hi /\
              sample (even_part b) i
              = Some (wrap16 (int16_of_byte lo + 256 * int16_of_byte hi)))
    as Hsample.
  { intros i Hi.
    destruct (lookup_lt_is_Some_2 (even_part b) (i * 2)) as [lo Hlo]; [lia |].
    destruct (lookup_lt_is_Some_2 (even_part b) (i * 2 + 1)) as [hi Hhi];
      [lia |].
    exists lo, hi.
    rewrite <- (even_part_lookup b (i * 2)) by lia.
    rewrite <- (even_part_lookup b (i * 2 + 1)) by lia.
    split; [exact Hlo |]. split; [exact Hhi |].
    unfold sample. rewrite Hlo, Hhi. cbn. f_equal. apply sample_value. }
  assert (is_Some (bytesToInt16 b)) as [pcm Hpcm].
  { unfold bytesToInt16. cbn zeta. rewrite Hhalf.
    apply mapM_is_Some, Forall_forall. intros i Hi.
    apply elem_of_seq in Hi.
    destruct (Hsample i) as (lo & hi & _ & _ & Hs); [lia |].
    cbn. rewrite Hs. eexists. reflexivity. }
  exists pcm. split; [exact Hpcm |].
  unfold bytesToInt16 in Hpcm. cbn zeta in Hpcm. rewrite Hhalf in Hpcm.
  apply mapM_Some_1 in Hpcm.
  pose proof (Forall2_length _ _ _ Hpcm) as Hl. rewrite length_seq in Hl.
  split; [symmetry; exact Hl |].
  intros i Hi.
  destruct (Hsample i Hi) as (lo & hi & Hlo & Hhi & Hs).
  exists lo, hi. split; [exact Hlo |]. split; [exact Hhi |].
  destruct (Forall2_lookup_l _ _ _ i i Hpcm) as (y & Hy & Hfy).
  { apply lookup_seq. lia. }
  rewrite Hy. congruence.
Qed.

(** X21.  [bytesToInt16] never runs out of its input: on every byte
    slice it returns [len(b)/2] samples, each within the range of
    [int16], and the sample number [i] is the 16-bit two's-complement
    number spelled by the bytes [2i] (low) and [2i+1] (high).  An odd
    last byte is not read. *)
Theorem bytesToInt16_little_endian (b : list byte) :
  exists pcm : list Z,
    bytesToInt16 b = Some pcm /\
    length pcm = (length b / 2)%nat /\
    Forall (fun s => (- 32768 <= s < 32768)%Z) pcm /\
    forall i : nat, (i < length b / 2)%nat ->
      exists lo hi : byte,
        b !! (i * 2)%nat = Some lo /\ b !! (i * 2 + 1)%nat = Some hi /\
        pcm !! i
        = Some (wrap16 (int16_of_byte lo + 256 * int16_of_byte hi)).
Proof.
  destruct (bytesToInt16_runs b) as (pcm & Hrun & Hlen & Hval).
  exists pcm. split; [exact Hrun |]. split; [exact Hlen |].
  split; [| exact Hval].
  apply Forall_lookup. intros i s Hs.
  destruct (Hval i) as (lo & hi & _ & _ & Hi).
  { rewrite <- Hlen. eapply lookup_lt_Some, Hs. }
  rewrite Hs in Hi. injection Hi as ->. apply wrap16_range.
Qed.

Lemma byte_of_sample (lo hi : byte) :
  let s := wrap16 (int16_of_byte lo + 256 * int16_of_byte hi) in
  (s mod 256 = int16_of_byte lo /\ (s / 256) mod 256 = int16_of_byte hi)%Z.
Proof.
  pose proof (int16_of_byte_range lo) as Hlo.
  pose proof (int16_of_byte_range hi) as Hhi.
  cbn zeta. unfold wrap16.
  change (2 ^ 15)%Z with 32768%Z. change (2 ^ 16)%Z with 65536%Z.
  set (l := int16_of_byte lo) in *. set (h := int16_of_byte hi) in *.
  assert ((l + 256 * h + 32768) mod 65536 - 32768
          = l + 256 * (if (h <? 128)%Z then h else h - 256))%Z as ->.
  { destruct (Z.ltb_spec h 128).
    - rewrite Z.mod_small by lia. lia.
    - replace (l + 256 * h + 32768)%Z
        with ((l + 256 * h - 32768) + 1 * 65536)%Z by lia.
      rewrite Z.mod_add by lia. rewrite Z.mod_small by lia. lia. }
  set (h' := if (h <? 128)%Z then h else (h - 256)%Z).
  assert (h' mod 256 = h)%Z as Hh'.
  { subst h'. destruct (Z.ltb_spec h 128).
    - apply Z.mod_small. lia.
    - replace (h - 256)%Z with (h + (-1) * 256)%Z by lia.
      rewrite Z.mod_add by lia. apply Z.mod_small. lia. }
  split.
  - replace (l + 256 * h')%Z with (l + h' * 256)%Z by lia.
    rewrite Z.mod_add by lia. apply Z.mod_small. lia.
  - replace (l + 256 * h')%Z with (l + h' * 256)%Z by lia.
    rewrite Z.div_add by lia. rewrite (Z.div_small l 256) by lia.
    exact Hh'.
Qed.

Lemma int16_of_byte_inj (x y : byte) :
  int16_of_byte x = int16_of_byte y -> x = y.
Proof.
  unfold int16_of_byte. intros Heq. apply N2Z.inj in Heq.
  pose proof (Byte.of_to_N x) as Hx. rewrite Heq, Byte.of_to_N in Hx.
  congruence.
Qed.

(** X22.  No sound is lost in the conversion: two byte slices of the
    same even length that [bytesToInt16] turns into the same samples are
    equal. *)
Theorem bytesToInt16_injective (b1 b2 : list byte) :
  (length b1 mod 2 = 0)%nat ->
  length b1 = length b2 ->
  bytesToInt16 b1 = bytesToInt16 b2 ->
  b1 = b2.
Proof.
  intros Heven Hlen Heq.
  destruct (bytesToInt16_runs b1) as (pcm1 & Hrun1 & Hlen1 & Hval1).
  destruct (bytesToInt16_runs b2) as (pcm2 & Hrun2 & Hlen2 & Hval2).
  assert (pcm1 = pcm2) as <- by congruence.
  pose proof (Nat.div_mod_eq (length b1) 2) as Hdm.
  assert (forall i, (i < length b1 / 2)%nat ->
            b1 !! (i * 2)%nat = b2 !! (i * 2)%nat /\
            b1 !! (i * 2 + 1)%nat = b2 !! (i * 2 + 1)%nat) as Hpair.
  { intros i Hi.
    destruct (Hval1 i Hi) as (lo1 & hi1 & Hlo1 & Hhi1 & Hs1).
    destruct (Hval2 i) as (lo2 & hi2 & Hlo2 & Hhi2 & Hs2);
      [rewrite <- Hlen; exact Hi |].
    rewrite Hs1 in Hs2. injection Hs2 as Hs.
    destruct (byte_of_sample lo1 hi1) as [Hl1 Hh1].
    destruct (byte_of_sample lo2 hi2) as [Hl2 Hh2].
    rewrite Hs in Hl1, Hh1.
    assert (lo1 = lo2) as -> by (apply int16_of_byte_inj; congruence).
    assert (hi1 = hi2) as -> by (apply int16_of_byte_inj; congruence).
    rewrite Hlo1, Hlo2, Hhi1, Hhi2. split; reflexivity. }
  apply list_eq. intros j.
  destruct (Nat.lt_ge_cases j (length b1)) as [Hj|Hj].
  - pose proof (Nat.div_mod_eq j 2) as Hjdm.
    pose proof (Nat.mod_upper_bound j 2) as Hjlt.
    destruct (Hpair (j / 2)%nat) as [He Ho]; [lia |].
    assert (j = j / 2 * 2 \/ j = j / 2 * 2 + 1)%nat as Hparity by lia.
    clear Hjdm Hjlt. revert He Ho Hparity.
    generalize (j / 2)%nat. intros k He Ho [->| ->]; assumption.
  - rewrite !lookup_ge_None_2 by lia. reflexivity.
Qed.

Lemma bytesToInt16_injective_witness :
  [x01; xff; x00; x80]%byte = [x01; xff; x00; x80]%byte.
Proof.
  apply (bytesToInt16_injective [x01; xff; x00; x80]%byte
           [x01; xff; x00; x80]%byte); reflexivity.
Defined.

Lemma capture_closed (ps : list period) (e : OpusEncoder) :
  encoder e = false ->
  exists records, capture ps e = Some ([], records).
Proof.
  intros Hclosed. induction ps as [|p ps [records IH]]; cbn [capture].
  - eexists. reflexivity.
  - unfold captureCallback, Encode.
    destruct (bytesToInt16_runs (pcmData p)) as (pcm & -> & _).
    rewrite Hclosed, IH. cbn. eexists. reflexivity.
Qed.

(** X23.  A recorder records once: [Record] closes the encoder on every
    way out, also when it fails before touching the device, and the
    encoder is never opened again.  So any later [Record] on the same
    recorder returns without panic and without having put a single frame
    on the channel, whatever the device captures. *)
Theorem recorder_records_once (d1 d2 : device) (r : recorder) :
  encoder (opusEncoder (snd (Record_ d1 r))) = false /\
  exists o : recording,
    fst (Record_ d2 (snd (Record_ d1 r))) = Some o /\ delivered o = [].
Proof.
  assert (snd (Record_ d1 r)
          = {| config := config r; opusEncoder := Close (opusEncoder r) |})
    as ->.
  { unfold Record_. cbn zeta.
    destruct (frameSize (config r) <=? 0)%Z; [reflexivity |].
    destruct (InitContext d1); [reflexivity |].
    destruct (InitDevice d1); [reflexivity |].
    destruct (Start d1); reflexivity. }
  split; [reflexivity |].
  unfold Record_. cbn zeta. cbn [config opusEncoder].
  destruct (frameSize (config r) <=? 0)%Z; [eexists; split; reflexivity |].
  destruct (InitContext d2); [eexists; split; reflexivity |].
  destruct (InitDevice d2); [eexists; split; reflexivity |].
  destruct (Start d2); [eexists; split; reflexivity |].
  destruct (capture_closed (periods d2) (Close (opusEncoder r)) eq_refl)
    as [records ->].
  cbn [fst]. eexists. split; reflexivity.
Qed.

(** X24.  The frame size guard: with a sample rate, a channel count and a
    frame duration that are not negative and whose product is below 1000
    (a zero among them, say), [Record] returns the error "invalid frame
    size: 0" without asking anything of the audio library -- and has
    closed the encoder all the same. *)
Theorem Record_invalid_frame_size (d : device) (r : recorder) :
  (0 <= SampleRate (config r))%Z ->
  (0 <= Channels (config r))%Z ->
  (0 <= FrameDuration (config r))%Z ->
  (SampleRate (config r) * Channels (config r) * FrameDuration (config r)
   < 1000)%Z ->
  Record_ d r
  = (Some {| err := Some "invalid frame size: 0"; delivered := [];
             logs := [] |},
     {| config := config r; opusEncoder := {| encoder := false |} |}).
Proof.
  intros Hsr Hch Hfd Hsmall.
  assert (frameSize (config r) = 0%Z) as Hzero.
  { unfold frameSize.
    destruct (Z.eq_dec (FrameDuration (config r)) 0) as [->|Hnz].
    - rewrite Z.mul_0_r. reflexivity.
    - assert (SampleRate (config r) * Channels (config r) < 1000)%Z by nia.
      assert (0 <= SampleRate (config r) * Channels (config r))%Z by nia.
      rewrite (UtilsFacts.wrap64_small
                 (SampleRate (config r) * Channels (config r))) by lia.
      rewrite UtilsFacts.wrap64_small by nia.
      apply Z.quot_small. nia. }
  unfold Record_. cbn zeta. rewrite Hzero. reflexivity.
Qed.

Lemma Record_invalid_frame_size_witness :
  Record_
    {| InitContext := None; InitDevice := None; Start := None;
       periods := [] |}
    {| config := {| SampleRate := 16000; Channels := 1;
                    FrameDuration := 0 |};
       opusEncoder := {| encoder := true |} |}
  = (Some {| err := Some "invalid frame size: 0"; delivered := [];
             logs := [] |},
     {| config := {| SampleRate := 16000; Channels := 1;
                     FrameDuration := 0 |};
        opusEncoder := {| encoder := false |} |}).
Proof.
  apply (Record_invalid_frame_size
           {| InitContext := None; InitDevice := None; Start := None;
              periods := [] |}
           {| config := {| SampleRate := 16000; Channels := 1;
                           FrameDuration := 0 |};
              opusEncoder := {| encoder := true |} |});
    cbn; lia.
Defined.

End RecorderFacts.

(* ===================================================================== *)
(** * Properties of the player's callback *)
(* ===================================================================== *)

Module PlayerFacts.
Import Player.

Local Open Scope nat_scope.

Lemma shaped_place (nch nfr p : nat) :
  (p < nch * nfr)%nat -> (p mod nch < nch)%nat /\ (p / nch < nfr)%nat.
Proof.
  intros Hp. assert (nch <> 0)%nat as Hnch by lia. split.
  - apply Nat.mod_upper_bound, Hnch.
  - apply Nat.Div0.div_lt_upper_bound. exact Hp.
Qed.

Lemma store_cell (nch nfr : nat) (out : list (list Q)) (p : nat) (v : Q) :
  shaped nch nfr out ->
  (p < nch * nfr)%nat ->
  exists out' : list (list Q),
    store out (p mod length out) (p / length out) v = Some out' /\
    shaped nch nfr out' /\
    cell out' p = Some v /\
    forall q : nat, q <> p -> cell out' q = cell out q.
Proof.
  intros [Hlen Hrows] Hp.
  destruct (shaped_place nch nfr p Hp) as [Hc Hs].
  assert (nch <> 0)%nat as Hnch by lia.
  rewrite Hlen.
  destruct (lookup_lt_is_Some_2 out (p mod nch)) as [row Hrow]; [lia |].
  assert (length row = nfr) as Hrowlen.
  { rewrite Forall_lookup in Hrows. exact (Hrows _ _ Hrow). }
  exists (<[p mod nch := <[p / nch := v]> row]> out).
  split; [| split; [| split]].
  - unfold store. rewrite Hrow. cbn.
    rewrite decide_True by lia. reflexivity.
  - split; [rewrite length_insert; exact Hlen |].
    apply Forall_insert; [exact Hrows |].
    rewrite length_insert. exact Hrowlen.
  - unfold cell. rewrite length_insert, Hlen.
    rewrite list_lookup_insert_eq by lia. cbn.
    apply list_lookup_insert_eq. lia.
  - intros q Hq. unfold cell. rewrite length_insert, Hlen.
    destruct (Nat.eq_dec (q mod nch) (p mod nch)) as [Heq|Hne].
    + rewrite Heq, list_lookup_insert_eq, Hrow by lia. cbn.
      apply list_lookup_insert_ne.
      intros Hdiv. apply Hq.
      rewrite (Nat.div_mod_eq q nch), (Nat.div_mod_eq p nch). congruence.
    + rewrite list_lookup_insert_ne by congruence. reflexivity.
Qed.

Lemma fill_chunk_cells (nch nfr : nat) (chunk : list Z) :
  forall (processed : nat) (out : list (list Q)),
  shaped nch nfr out ->
  (processed <= nch * nfr)%nat ->
  exists out' : list (list Q),
    fill_chunk chunk processed (nch * nfr) out
    = Some (Nat.min (nch * nfr) (processed + length chunk), out') /\
    shaped nch nfr out' /\
    forall q : nat,
      cell out' q
      = if decide (processed <= q < Nat.min (nch * nfr)
                                      (processed + length chunk))%nat
        then to_float <$> chunk !! (q - processed)%nat
        else cell out q.
Proof.
  induction chunk as [|x chunk IH]; intros processed out Hshape Hle;
    cbn [fill_chunk length].
  - exists out. split; [f_equal; f_equal; lia |]. split; [exact Hshape |].
    intros q. rewrite decide_False by lia. reflexivity.
  - case_decide as Hlt.
    + destruct (store_cell nch nfr out processed (to_float x) Hshape Hlt)
        as (out1 & -> & Hshape1 & Hhere & Hother).
      cbn.
      destruct (IH (S processed) out1 Hshape1) as (out' & -> & Hshape' & Hcells);
        [lia |].
      exists out'. split; [f_equal; f_equal; lia |]. split; [exact Hshape' |].
      intros q. rewrite Hcells.
      destruct (Nat.eq_dec q processed) as [->|Hq].
      * rewrite decide_False by lia. rewrite decide_True by lia.
        rewrite Nat.sub_diag. exact Hhere.
      * rewrite Hother by exact Hq.
        repeat case_decide; try lia; [| reflexivity].
        replace (q - processed)%nat with (S (q - S processed)) by lia.
        reflexivity.
    + exists out. split; [f_equal; f_equal; lia |]. split; [exact Hshape |].
      intros q. rewrite decide_False by lia. reflexivity.
Qed.

Lemma fill_silence_cells (nch nfr : nat) (left : nat) :
  forall (processed : nat) (out : list (list Q)),
  shaped nch nfr out ->
  (processed + left <= nch * nfr)%nat ->
  exists out' : list (list Q),
    fill_silence left processed out = Some out' /\
    shaped nch nfr out' /\
    forall q : nat,
      cell out' q
      = if decide (processed <= q < processed + left)%nat
        then Some 0%Q else cell out q.
Proof.
  induction left as [|left IH]; intros processed out Hshape Hle;
    cbn [fill_silence].
  - exists out. split; [reflexivity |]. split; [exact Hshape |].
    intros q. rewrite decide_False by lia. reflexivity.
  - destruct (store_cell nch nfr out processed 0%Q Hshape)
      as (out1 & -> & Hshape1 & Hhere & Hother); [lia |].
    cbn.
    destruct (IH (S processed) out1 Hshape1) as (out' & -> & Hshape' & Hcells);
      [lia |].
    exists out'. split; [reflexivity |]. split; [exact Hshape' |].
    intros q. rewrite Hcells.
    destruct (Nat.eq_dec q processed) as [->|Hq].
    + rewrite decide_False by lia. rewrite decide_True by lia. exact Hhere.
    + rewrite Hother by exact Hq. repeat case_decide; try lia; reflexivity.
Qed.

Lemma callback_loop_cells (nch nfr : nat) (buffer : list (list Z)) :
  forall (processed : nat) (out : list (list Q)),
  shaped nch nfr out ->
  (processed <= nch * nfr)%nat ->
  exists (out' : list (list Q)) (used rest : list (list Z)),
    callback_loop buffer processed (nch * nfr) out = Some (out', rest) /\
    shaped nch nfr out' /\
    (forall q : nat,
       cell out' q
       = if decide (processed <= q < nch * nfr)%nat
         then Some (played (concat buffer) (q - processed))
         else cell out q) /\
    buffer = (used ++ rest)%list /\
    (rest <> [] -> (nch * nfr <= processed + length (concat used))%nat) /\
    (forall used' chunk more,
       used = (used' ++ chunk :: more)%list ->
       (processed + length (concat used') < nch * nfr)%nat).
Proof.
  induction buffer as [|chunk buffer IH]; intros processed out Hshape Hle.
  - cbn [callback_loop]. case_decide as Hlt.
    + destruct (fill_silence_cells nch nfr (nch * nfr - processed)
                  processed out Hshape) as (out' & -> & Hshape' & Hcells);
        [lia |].
      cbn. exists out', [], [].
      split; [reflexivity |]. split; [exact Hshape' |].
      split; [| split; [reflexivity | split]].
      * intros q. rewrite Hcells.
        repeat case_decide; try lia; reflexivity.
      * intros Hne. congruence.
      * intros used' c more Hused. destruct used'; discriminate Hused.
    + exists out, [], [].
      split; [reflexivity |]. split; [exact Hshape |].
      split; [| split; [reflexivity | split]].
      * intros q. rewrite decide_False by lia. reflexivity.
      * intros Hne. congruence.
      * intros used' c more Hused. destruct used'; discriminate Hused.
  - cbn [callback_loop]. case_decide as Hlt.
    + destruct (fill_chunk_cells nch nfr chunk processed out Hshape Hle)
        as (out1 & -> & Hshape1 & Hcells1).
      cbn.
      destruct (IH (Nat.min (nch * nfr) (processed + length chunk)) out1
                  Hshape1)
        as (out' & used & rest & -> & Hshape' & Hcells & Hsplit & Hfull & Hmin);
        [lia |].
      exists out', (chunk :: used), rest.
      split; [reflexivity |]. split; [exact Hshape' |].
      split; [| split; [| split]].
      * intros q. rewrite Hcells, Hcells1. cbn [concat]. unfold played.
        repeat case_decide; try lia.
        -- rewrite lookup_app_r by lia.
           replace (q - Nat.min (nch * nfr) (processed + length chunk))%nat
             with (q - processed - length chunk)%nat by lia.
           reflexivity.
        -- rewrite lookup_app_l by lia.
           destruct (lookup_lt_is_Some_2 chunk (q - processed)) as [x ->];
             [lia | reflexivity].
        -- reflexivity.
      * cbn [app]. rewrite Hsplit. reflexivity.
      * intros Hne. specialize (Hfull Hne). cbn [concat].
        rewrite length_app. lia.
      * intros used' c more Hused.
        destruct used' as [|c' used'].
        -- cbn. lia.
        -- cbn [app] in Hused. injection Hused as <- Hused.
           specialize (Hmin used' c more Hused).
           cbn [concat]. rewrite length_app. lia.
    + exists out, [], (chunk :: buffer).
      split; [reflexivity |]. split; [exact Hshape |].
      split; [| split; [reflexivity | split]].
      * intros q. rewrite decide_False by lia. reflexivity.
      * intros _. cbn. lia.
      * intros used' c more Hused. destruct used'; discriminate Hused.
Qed.

Lemma audioCallback_loop (nch nfr : nat) (out : list (list Q))
    (buffer : list (list Z)) :
  shaped nch nfr out ->
  0 < nch ->
  audioCallback out buffer = callback_loop buffer 0 (nch * nfr) out.
Proof.
  intros [Hlen Hrows] Hnch. unfold audioCallback.
  destruct out as [|row out]; [cbn in Hlen; lia |].
  rewrite Hlen. apply Forall_cons in Hrows. destruct Hrows as [-> _].
  reflexivity.
Qed.

(** X25.  The callback writes every sample of the output: on an output
    of [nch] channels of [nfr] samples it returns without running out of
    an index, and the sample [s] of the channel [ch] then holds the
    element [s * nch + ch] of the buffered chunks laid end to end,
    divided by 32768, or silence when the chunks end before it.  Nothing
    of what the output held before is left. *)
Theorem audioCallback_fills (nch nfr : nat) (out : list (list Q))
    (buffer : list (list Z)) :
  shaped nch nfr out ->
  0 < nch ->
  exists (out' : list (list Q)) (rest : list (list Z)),
    audioCallback out buffer = Some (out', rest) /\
    shaped nch nfr out' /\
    forall ch s : nat, ch < nch -> s < nfr ->
      (row ← out' !! ch; row !! s)
      = Some (played (concat buffer) (s * nch + ch)).
Proof.
  intros Hshape Hnch.
  rewrite (audioCallback_loop nch nfr out buffer Hshape Hnch).
  destruct (callback_loop_cells nch nfr buffer 0 out Hshape)
    as (out' & used & rest & Hrun & Hshape' & Hcells & _); [lia |].
  exists out', rest. split; [exact Hrun |]. split; [exact Hshape' |].
  intros ch s Hch Hs.
  specialize (Hcells (s * nch + ch)).
  assert (s * nch + ch < nch * nfr) as Hq by nia.
  rewrite decide_True in Hcells by lia.
  rewrite Nat.sub_0_r in Hcells. rewrite <- Hcells.
  unfold cell. destruct Hshape' as [-> _].
  replace (s * nch + ch) with (ch + s * nch) by lia.
  rewrite Nat.Div0.mod_add, Nat.div_add by lia.
  rewrite Nat.mod_small, Nat.div_small by lia.
  reflexivity.
Qed.

Lemma audioCallback_fills_witness :
  exists (out' : list (list Q)) (rest : list (list Z)),
    audioCallback [[1%Q; 1%Q]; [1%Q; 1%Q]] [[10; 20; 30]%Z] = Some (out', rest) /\
    shaped 2 2 out' /\
    forall ch s : nat, ch < 2 -> s < 2 ->
      (row ← out' !! ch; row !! s)
      = Some (played (concat [[10; 20; 30]%Z]) (s * 2 + ch)).
Proof.
  apply (audioCallback_fills 2 2 [[1%Q; 1%Q]; [1%Q; 1%Q]] [[10; 20; 30]%Z]).
  - split; [reflexivity | repeat constructor].
  - lia.
Defined.

(** X26.  Chunks are taken from the buffer whole, and only while the
    output is not yet full: the chunks left over are the buffer without
    the chunks taken, no chunk is taken once those before it fill the
    output, and chunks are left only when the output is full.  So what
    remains of the last chunk taken when the output is full is neither
    played nor left in the buffer. *)
Theorem audioCallback_takes_whole_chunks (nch nfr : nat)
    (out : list (list Q)) (buffer : list (list Z)) :
  shaped nch nfr out ->
  0 < nch ->
  exists (out' : list (list Q)) (used rest : list (list Z)),
    audioCallback out buffer = Some (out', rest) /\
    buffer = (used ++ rest)%list /\
    (rest <> [] -> nch * nfr <= length (concat used)) /\
    (forall used' chunk more,
       used = (used' ++ chunk :: more)%list ->
       length (concat used') < nch * nfr).
Proof.
  intros Hshape Hnch.
  rewrite (audioCallback_loop nch nfr out buffer Hshape Hnch).
  destruct (callback_loop_cells nch nfr buffer 0 out Hshape)
    as (out' & used & rest & Hrun & _ & _ & Hsplit & Hfull & Hmin); [lia |].
  exists out', used, rest. split; [exact Hrun |]. split; [exact Hsplit |].
  split.
  - intros Hne. apply Hfull in Hne. lia.
  - intros used' chunk more Hused. apply Hmin in Hused. lia.
Qed.

Lemma audioCallback_takes_whole_chunks_witness :
  exists (out' : list (list Q)) (used rest : list (list Z)),
    audioCallback [[0%Q; 0%Q]] [[1; 2; 3]%Z; [4]%Z] = Some (out', rest) /\
    [[1; 2; 3]%Z; [4]%Z] = (used ++ rest)%list /\
    (rest <> [] -> 1 * 2 <= length (concat used)) /\
    (forall used' chunk more,
       used = (used' ++ chunk :: more)%list ->
       length (concat used') < 1 * 2).
Proof.
  apply (audioCallback_takes_whole_chunks 1 2 [[0%Q; 0%Q]]
           [[1; 2; 3]%Z; [4]%Z]).
  - split; [reflexivity | repeat constructor].
  - lia.
Defined.

(** The third sample of the first chunk is lost. *)
Example audioCallback_drops_a_tail :
  audioCallback [[0%Q; 0%Q]] [[1; 2; 3]%Z; [4]%Z]
  = Some ([[to_float 1; to_float 2]], [[4]%Z]).
Proof. reflexivity. Qed.

End PlayerFacts.

(* ===================================================================== *)
(** * Properties of the logger and of the websocket transport *)
(* ===================================================================== *)

Module BoundaryFacts.
Import Core.

Local Open Scope string_scope.

Lemma writers_of_returns (fs : Logger.filesystem) (outputs : list string) :
  (exists ws, Logger.writers_of fs outputs = Return ws) <->
  Forall (Logger.usable fs) outputs.
Proof.
  induction outputs as [|o outputs IH]; cbn [Logger.writers_of].
  - split; [constructor | eexists; reflexivity].
  - rewrite Forall_cons. unfold Logger.usable at 1.
    case_decide as Hstd.
    + destruct (Logger.writers_of fs outputs) as [ws|msg].
      * split; [| eexists; reflexivity].
        intros _. split; [tauto |]. apply IH. eexists. reflexivity.
      * split.
        -- intros [ws Hws]. discriminate Hws.
        -- intros [_ Hrest]. apply IH in Hrest.
           destruct Hrest as [ws Hws]. discriminate Hws.
    + destruct (Logger.MkdirAll fs o) as [e|].
      { split; [intros [ws Hws]; discriminate Hws |].
        intros [[?|[?|[? ?]]] _]; [tauto | tauto | discriminate]. }
      destruct (Logger.OpenFile fs o) as [e|].
      { split; [intros [ws Hws]; discriminate Hws |].
        intros [[?|[?|[? ?]]] _]; [tauto | tauto | discriminate]. }
      destruct (Logger.writers_of fs outputs) as [ws|msg].
      * split; [| eexists; reflexivity].
        intros _. split; [tauto |]. apply IH. eexists. reflexivity.
      * split.
        -- intros [ws Hws]. discriminate Hws.
        -- intros [_ Hrest]. apply IH in Hrest.
           destruct Hrest as [ws Hws]. discriminate Hws.
Qed.

(** X27.  [Init] never returns an error.  It returns [nil] when [once]
    has already run or every output is usable, and panics otherwise;
    either way [once] has run afterwards, so every later [Init] returns
    [nil] and changes nothing -- a logger whose first [Init] panicked
    stays unset. *)
Theorem Init_never_returns_an_error
    (cfg cfg' : Logger.Config) (fs fs' : Logger.filesystem)
    (g : Logger.globals) :
  (forall e : string, fst (Logger.Init cfg fs g) <> Return (Some e)) /\
  (fst (Logger.Init cfg fs g) = Return None <->
     Logger.once g = true \/ Forall (Logger.usable fs) (Logger.Outputs cfg)) /\
  Logger.Init cfg' fs' (snd (Logger.Init cfg fs g))
  = (Return None, snd (Logger.Init cfg fs g)) /\
  (Logger.once g = false ->
   ~ Forall (Logger.usable fs) (Logger.Outputs cfg) ->
   Logger.globalLogger (snd (Logger.Init cfg fs g)) = Logger.globalLogger g).
Proof.
  pose proof (writers_of_returns fs (Logger.Outputs cfg)) as Hws.
  unfold Logger.Init.
  destruct (Logger.once g) eqn:Honce.
  - cbn [fst snd]. rewrite Honce.
    repeat split; try discriminate; auto.
  - destruct (Logger.writers_of fs (Logger.Outputs cfg)) as [ws|msg];
      cbn [fst snd Logger.once Logger.globalLogger].
    + repeat split; try discriminate; auto.
      * intros _. right. apply Hws. eexists. reflexivity.
      * intros _ Hnot. exfalso. apply Hnot, Hws. eexists. reflexivity.
    + repeat split; try discriminate; auto.
      intros [Hdone|Hall]; [discriminate Hdone |].
      apply Hws in Hall. destruct Hall as [ws Hall]. discriminate Hall.
Qed.

Lemma Init_never_returns_an_error_witness :
  fst (Logger.Init
         {| Logger.Level := "debug"; Logger.Outputs := ["/var/log/x.log"] |}
         {| Logger.MkdirAll := fun _ => Some "permission denied";
            Logger.OpenFile := fun _ => None |}
         {| Logger.globalLogger := None; Logger.once := false |})
    <> Return None /\
  Logger.globalLogger
    (snd (Logger.Init
            {| Logger.Level := "debug";
               Logger.Outputs := ["/var/log/x.log"] |}
            {| Logger.MkdirAll := fun _ => Some "permission denied";
               Logger.OpenFile := fun _ => None |}
            {| Logger.globalLogger := None; Logger.once := false |}))
    = None.
Proof.
  pose proof (Init_never_returns_an_error
                {| Logger.Level := "debug";
                   Logger.Outputs := ["/var/log/x.log"] |}
                {| Logger.Level := "debug"; Logger.Outputs := [] |}
                {| Logger.MkdirAll := fun _ => Some "permission denied";
                   Logger.OpenFile := fun _ => None |}
                {| Logger.MkdirAll := fun _ => None;
                   Logger.OpenFile := fun _ => None |}
                {| Logger.globalLogger := None; Logger.once := false |})
    as (_ & Hnil & _ & Hunset).
  assert (~ Forall
              (Logger.usable
                 {| Logger.MkdirAll := fun _ => Some "permission denied";
                    Logger.OpenFile := fun _ => None |})
              ["/var/log/x.log"]) as Hnot.
  { intros Hall. apply Forall_cons in Hall. destruct Hall as [Hone _].
    destruct Hone as [H|[H|[H _]]]; discriminate H. }
  split.
  - intros Hret. apply Hnil in Hret. destruct Hret as [Hdone|Hall].
    + discriminate Hdone.
    + exact (Hnot Hall).
  - apply Hunset; [reflexivity | exact Hnot].
Defined.

(** X28.  The message type survives the wire for text and binary, not
    for control: on a connected transport, [Send] writes a frame whose
    type [readPump] turns back into the type sent when that is [MsgText]
    or [MsgBinary]; a [MsgControl] goes out as a text frame and comes
    back as [MsgText]. *)
Theorem message_type_round_trip (msgType : MessageType) (write : error)
    (data : string) (p : WebSocket.WSProtocol) :
  WebSocket.conn p = true ->
  exists frameType : Z,
    WebSocket.Send msgType write p = (write, Some frameType) /\
    WebSocket.readPump [(frameType, data)]
    = [mkMessage data (match msgType with
                       | MsgBinary => MsgBinary
                       | _ => MsgText
                       end)].
Proof.
  intros Hconn. unfold WebSocket.Send. rewrite Hconn.
  eexists. split; [reflexivity |].
  destruct msgType; reflexivity.
Qed.

Lemma message_type_round_trip_witness :
  exists frameType : Z,
    WebSocket.Send MsgControl None
      (snd (WebSocket.Connect None WebSocket.NewWebSocketProtocol))
    = (None, Some frameType) /\
    WebSocket.readPump [(frameType, "ping")]
    = [mkMessage "ping" MsgText].
Proof.
  apply (message_type_round_trip MsgControl None "ping"
           (snd (WebSocket.Connect None WebSocket.NewWebSocketProtocol))).
  reflexivity.
Defined.

(** X29.  The life of a websocket transport: until a [Connect] has
    succeeded, [Send] fails with "connection failed" and writes no frame,
    and a failed [Connect] changes nothing; [Close] before any [Connect]
    returns [nil]; and a second [Close] panics on the closed channel. *)
Theorem transport_life (dial write close close' : error)
    (msgType : MessageType) (p : WebSocket.WSProtocol) :
  WebSocket.Send msgType write WebSocket.NewWebSocketProtocol
    = (Some "connection failed", None) /\
  (dial <> None ->
   snd (WebSocket.Connect dial p) = p /\
   exists e, fst (WebSocket.Connect dial p) = Some e) /\
  fst (WebSocket.Close close WebSocket.NewWebSocketProtocol) = Return None /\
  fst (WebSocket.Close close' (snd (WebSocket.Close close p)))
    = Panic "close of closed channel".
Proof.
  split; [reflexivity |]. split; [| split; [reflexivity |]].
  - intros Hdial. destruct dial as [e|]; [| congruence].
    split; [reflexivity | eexists; reflexivity].
  - unfold WebSocket.Close. destruct (WebSocket.closeChan p) eqn:Hc.
    + cbn [snd]. rewrite Hc. reflexivity.
    + reflexivity.
Qed.

Lemma transport_life_witness :
  snd (WebSocket.Connect (Some "dial tcp: timeout")
         WebSocket.NewWebSocketProtocol)
    = WebSocket.NewWebSocketProtocol /\
  fst (WebSocket.Close None
         (snd (WebSocket.Close None WebSocket.NewWebSocketProtocol)))
    = Panic "close of closed channel".
Proof.
  destruct (transport_life (Some "dial tcp: timeout") None None None MsgText
              WebSocket.NewWebSocketProtocol)
    as (_ & Hfailed & _ & Hpanic).
  split.
  - apply Hfailed. discriminate.
  - exact Hpanic.
Defined.

End BoundaryFacts.
